(** * zavy.py: the indexed value accessor and the ancestor path finder

    A shallow embedding of the two helpers of [zavy.py] that carry logic of
    their own, [get_value_at_index] and [find_path], together with the
    fragments of the Python runtime they call: subscripting of the built-in
    containers, [try]/[except], [os.listdir], [os.path.dirname],
    [os.path.join] and [print]. *)

From Stdlib Require Import ZArith String Ascii List Lia.
From stdpp Require Import base decidable option list countable gmap strings.
From Equations Require Import Equations.

#[local] Set Warnings "-register-all".

Local Open Scope string_scope.
Local Open Scope list_scope.
Local Open Scope Z_scope.

(** ** Python values and exceptions *)

Module Py.

(** The exceptions the modelled operations can raise.  [KeyError] and
    [IndexError] are siblings under [LookupError]; neither is a subclass
    of the other, so [except KeyError] does not catch an [IndexError]. *)
Inductive exn : Type :=
| KeyError
| IndexError
| TypeError
| OSError.

#[global] Instance exn_eq_dec : EqDecision exn.
Proof. solve_decision. Defined.

(** What may appear between the brackets of a subscript, and what a
    dictionary is keyed by.  The accessor only ever subscripts with its
    integer [index] and with the literal ["result"]. *)
Inductive key : Type :=
| KInt (i : Z)
| KStr (s : string).

#[global] Instance key_eq_dec : EqDecision key.
Proof. solve_decision. Defined.

#[global] Instance key_countable : Countable key.
Proof.
  refine (inj_countable'
            (fun k => match k with KInt i => inl i | KStr s => inr s end)
            (fun x => match x with inl i => KInt i | inr s => KStr s end) _).
  intros []; reflexivity.
Defined.

(** Python objects: scalars, the ordered sequences ([list], [tuple],
    [str]) and [dict]. *)
Inductive value : Type :=
| VNone
| VInt (i : Z)
| VStr (s : string)
| VList (items : list value)
| VTuple (items : list value)
| VDict (entries : gmap key value).

(** [seq[i]] on a sequence of length [n]: indices [0 .. n-1] count from
    the front, [-n .. -1] from the back, anything else is out of range. *)
Definition seq_index {A : Type} (items : list A) (i : Z) : exn + A :=
  let n := Z.of_nat (length items) in
  let j := if i <? 0 then i + n else i in
  if (j <? 0) || (n <=? j) then inl IndexError
  else match items !! Z.to_nat j with
       | Some v => inr v
       | None => inl IndexError
       end.

(** The ordered sequences among the built-in types, as the list of their
    elements.  The elements of a [str] are its one-character strings; a
    character here is one byte, so the [str] case is that of ASCII text. *)
Definition as_sequence (obj : value) : option (list value) :=
  match obj with
  | VList items | VTuple items => Some items
  | VStr s => Some ((fun c => VStr (String c EmptyString)) <$> list_ascii_of_string s)
  | VNone | VInt _ | VDict _ => None
  end.

(** [obj[k]], that is [type(obj).__getitem__(obj, k)], for the built-in
    types: a sequence takes an integer and raises [IndexError] out of range
    ([TypeError] for a string between the brackets), a [dict] raises
    [KeyError] on a key it does not hold, and the scalars are not
    subscriptable. *)
Definition getitem (obj : value) (k : key) : exn + value :=
  match obj with
  | VDict entries =>
      match entries !! k with
      | Some v => inr v
      | None => inl KeyError
      end
  | VNone | VInt _ => inl TypeError
  | VList _ | VTuple _ | VStr _ =>
      match as_sequence obj, k with
      | Some items, KInt i => seq_index items i
      | _, _ => inl TypeError
      end
  end.

End Py.

(** ** Exceptions and effects

    Python code runs against a state and either returns or raises.  A
    computation is a function from the state before to the outcome and the
    state after. *)

Module Eff.

Section Eff.
Context {S : Type}.

Definition eff (A : Type) : Type := S -> (Py.exn + A) * S.

Definition ret {A : Type} (a : A) : eff A := fun s => (inr a, s).

Definition raise {A : Type} (e : Py.exn) : eff A := fun s => (inl e, s).

Definition bind {A B : Type} (m : eff A) (k : A -> eff B) : eff B :=
  fun s =>
    match m s with
    | (inr a, s') => k a s'
    | (inl e, s') => (inl e, s')
    end.

(** [try: body  except cls: handler].  The handler runs when the body
    raises [cls]; any other exception passes through, and an exception
    raised by the handler itself is not caught again. *)
Definition try_except {A : Type} (body : eff A) (cls : Py.exn) (handler : eff A) : eff A :=
  fun s =>
    match body s with
    | (inr a, s') => (inr a, s')
    | (inl e, s') => if decide (e = cls) then handler s' else (inl e, s')
    end.

End Eff.

Notation "x <- m ;; k" := (bind m (fun x => k))
  (at level 100, m at next level, right associativity).

End Eff.

(** ** The indexed value accessor *)

Module Accessor.
Import Py Eff.

(** One evaluation of a subscript expression [obj[k]]. *)
Inductive access : Type :=
| Subscript (obj : value) (k : key).

(** Evaluate [obj[k]].  The log is an observer's record of the subscripts
    evaluated so far; the code never reads it. *)
Definition subscript (obj : value) (k : key) : eff (S := list access) value :=
  fun log => (getitem obj k, log ++ [Subscript obj k]).

(** [get_value_at_index(obj, index)]:
<<
    try:
        return obj[index]
    except KeyError:
        return obj["result"][index]
>> *)
Definition get_value_at_index (obj : value) (index : Z) : eff (S := list access) value :=
  try_except
    (subscript obj (KInt index))
    KeyError
    (r <- subscript obj (KStr "result") ;;
     subscript r (KInt index)).

(** Whether every character of [s] is an ASCII character (below 128). *)
Definition ascii_only (s : string) : bool :=
  forallb (fun c => (nat_of_ascii c <? 128)%nat) (list_ascii_of_string s).

End Accessor.

(** ** Path manipulation: the fragment of [posixpath] used by [find_path]

    Paths are byte strings and the separator is ["/"]. *)

Module OsPath.

Definition sep : ascii := "/"%char.

(** [s.rfind(c)]: the highest index at which [c] occurs in [s], or [-1]. *)
Fixpoint rfind (s : string) (c : ascii) : Z :=
  match s with
  | EmptyString => -1
  | String a s' =>
      let r := rfind s' c in
      if 0 <=? r then r + 1 else if Ascii.eqb a c then 0 else -1
  end.

(** [s[:i]]: a negative bound counts from the end, and bounds beyond either
    end are clipped. *)
Definition slice_to (s : string) (i : Z) : string :=
  let n := Z.of_nat (String.length s) in
  let j := if i <? 0 then Z.max (i + n) 0 else Z.min i n in
  substring 0 (Z.to_nat j) s.

(** [s.rstrip(c)]: [s] without its trailing run of [c]. *)
Fixpoint rstrip (s : string) (c : ascii) : string :=
  match s with
  | EmptyString => EmptyString
  | String a s' =>
      match rstrip s' c with
      | EmptyString => if Ascii.eqb a c then EmptyString else String a EmptyString
      | r => String a r
      end
  end.

(** [c * n]: the string of [n] copies of [c]. *)
Fixpoint str_mul (c : ascii) (n : nat) : string :=
  match n with
  | O => EmptyString
  | S n' => String c (str_mul c n')
  end.

(** [s.startswith(c)] and [s.endswith(c)] for a one-character [c]. *)
Definition startswith (s : string) (c : ascii) : bool :=
  match s with
  | EmptyString => false
  | String a _ => Ascii.eqb a c
  end.

Fixpoint endswith (s : string) (c : ascii) : bool :=
  match s with
  | EmptyString => false
  | String a EmptyString => Ascii.eqb a c
  | String _ s' => endswith s' c
  end.

(** [posixpath.dirname(p)]:
<<
    i = p.rfind(sep) + 1
    head = p[:i]
    if head and head != sep*len(head):
        head = head.rstrip(sep)
    return head
>> *)
Definition dirname (p : string) : string :=
  let i := rfind p sep + 1 in
  let head := slice_to p i in
  if negb (String.eqb head "") && negb (String.eqb head (str_mul sep (String.length head)))
  then rstrip head sep
  else head.

(** [posixpath.join(a, b)] with one component to append:
<<
    if b.startswith(sep):
        path = b
    elif not path or path.endswith(sep):
        path += b
    else:
        path += sep + b
>> *)
Definition join (a b : string) : string :=
  if startswith b sep then b
  else if String.eqb a "" || endswith a sep then a +:+ b
  else a +:+ String sep b.

End OsPath.

(** ** Why the upward search is well founded

    [dirname] never lengthens a path, and shortens every path it changes. *)

Module OsPathFacts.
Import OsPath.

Lemma substring_0_length (n : nat) (s : string) :
  String.length (substring 0 n s) = Nat.min n (String.length s).
Proof.
  revert n; induction s as [|a s IH]; intros [|n]; simpl; auto.
Qed.

Lemma substring_0_full (n : nat) (s : string) :
  (String.length s <= n)%nat -> substring 0 n s = s.
Proof.
  revert n; induction s as [|a s IH]; intros [|n] H; simpl in *; auto; try lia.
  f_equal. apply IH. lia.
Qed.

Lemma rstrip_length (s : string) (c : ascii) :
  (String.length (rstrip s c) <= String.length s)%nat.
Proof.
  induction s as [|a s IH]; simpl; [lia|].
  destruct (rstrip s c); [destruct (Ascii.eqb a c)|]; simpl in *; lia.
Qed.

Lemma rstrip_full (s : string) (c : ascii) :
  String.length (rstrip s c) = String.length s -> rstrip s c = s.
Proof.
  induction s as [|a s IH]; simpl; [reflexivity|].
  pose proof (rstrip_length s c) as Hle.
  destruct (rstrip s c) eqn:E.
  - destruct (Ascii.eqb a c); simpl in *; intros H; [lia|].
    destruct s; simpl in *; [reflexivity | lia].
  - simpl in *. intros H. f_equal. apply IH. lia.
Qed.

Lemma slice_to_length (s : string) (i : Z) :
  (String.length (slice_to s i) <= String.length s)%nat.
Proof. unfold slice_to. rewrite substring_0_length. lia. Qed.

Lemma slice_to_full (s : string) (i : Z) :
  String.length (slice_to s i) = String.length s -> slice_to s i = s.
Proof.
  unfold slice_to. rewrite substring_0_length. intros H.
  apply substring_0_full. lia.
Qed.

Lemma dirname_length (p : string) :
  (String.length (dirname p) <= String.length p)%nat.
Proof.
  unfold dirname.
  pose proof (slice_to_length p (rfind p sep + 1)).
  pose proof (rstrip_length (slice_to p (rfind p sep + 1)) sep).
  destruct (_ && _); lia.
Qed.

Lemma dirname_shorter (p : string) :
  dirname p <> p -> (String.length (dirname p) < String.length p)%nat.
Proof.
  intros Hne.
  destruct (Nat.eq_dec (String.length (dirname p)) (String.length p)) as [E|E];
    [|pose proof (dirname_length p); lia].
  exfalso; apply Hne; revert E. unfold dirname.
  pose proof (slice_to_length p (rfind p sep + 1)) as H1.
  pose proof (rstrip_length (slice_to p (rfind p sep + 1)) sep) as H2.
  destruct (_ && _); intros E.
  - rewrite rstrip_full by lia. apply slice_to_full. lia.
  - apply slice_to_full. lia.
Qed.

End OsPathFacts.

(** ** The ancestor path finder *)

Module PathFinder.
Import Py Eff OsPath.

(** What [find_path] can see of the machine: for each path string whether
    it can be listed, and with which entries, and the working directory.
    [listing p = None] stands for every way [os.listdir(p)] fails (no such
    directory, not a directory, permission denied). *)
Record filesystem : Type := {
  listing : string -> option (list string);
  cwd : string
}.

(** What a run does that is visible from outside, in order. *)
Inductive event : Type :=
| Listdir (path : string)
| Printed (line : string).

Record world : Type := {
  fs : filesystem;
  trace : list event
}.

Definition emit (e : event) (w : world) : world :=
  {| fs := fs w; trace := trace w ++ [e] |}.

(** [os.listdir(path)].  The empty path names no directory: path
    resolution rejects it with ENOENT whatever the filesystem holds, and
    [os.listdir] raises [FileNotFoundError], an [OSError]. *)
Definition os_listdir (path : string) : eff (S := world) (list string) :=
  fun w =>
    (if String.eqb path "" then inl OSError
     else match listing (fs w) path with
          | Some entries => inr entries
          | None => inl OSError
          end,
     emit (Listdir path) w).

(** The string [print] receives for [f"{name} found: {path_name}"]. *)
Definition found_message (name path_name : string) : string :=
  name +:+ " found: " +:+ path_name.

(** [print(line)] *)
Definition print (line : string) : eff (S := world) unit :=
  fun w => (inr tt, emit (Printed line) w).

(** [name in entries] *)
Definition contains (entries : list string) (name : string) : bool :=
  existsb (String.eqb name) entries.

(** The path after [if path is None: path = os.getcwd()]. *)
Definition path_or_cwd (path : option string) (w : world) : string :=
  match path with
  | None => cwd (fs w)
  | Some p => p
  end.

(** [find_path(name, path)]:
<<
    if path is None:
        path = os.getcwd()
    if name in os.listdir(path):
        path_name = os.path.join(path, name)
        print(f"{name} found: {path_name}")
        return path_name
    parent_directory = os.path.dirname(path)
    if parent_directory == path:
        return None
    return find_path(name, parent_directory)
>>
    The recursive call is on the parent, which is not a subterm of [path];
    it is justified by the length of the path, which the parent of a
    directory other than itself is strictly below. *)
Equations? find_path (name : string) (path : option string) (w : world)
  : (exn + option string) * world
  by wf (String.length (path_or_cwd path w)) lt :=
find_path name path w with os_listdir (path_or_cwd path w) w := {
  | (inl e, w1) => (inl e, w1)
  | (inr entries, w1) with contains entries name := {
    | true =>
        let path_name := join (path_or_cwd path w) name in
        let '(_, w2) := print (found_message name path_name) w1 in
        (inr (Some path_name), w2)
    | false with decide (dirname (path_or_cwd path w) = path_or_cwd path w) := {
      | left _ => (inr None, w1)
      | right _ => find_path name (Some (dirname (path_or_cwd path w))) w1 } } }.
Proof.
  simpl. apply OsPathFacts.dirname_shorter. assumption.
Qed.

(** *** Vocabulary for the statements about [find_path]

    None of the following is called by the code; it names what the
    statements below talk about. *)

(** What looking for [name] in the directory [d] comes to: [None] when [d]
    cannot be listed, otherwise whether the listing holds [name]. *)
Definition probe (fsys : filesystem) (name d : string) : option bool :=
  if String.eqb d "" then None
  else match listing fsys d with
       | Some entries => Some (contains entries name)
       | None => None
       end.

(** The chain of directories above [p]: [p], its parent, the parent of
    that, ..., ending with the first one that is its own parent. *)
Equations? ancestors (p : string) : list string by wf (String.length p) lt :=
ancestors p with decide (dirname p = p) := {
  | left _ => [p]
  | right _ => p :: ancestors (dirname p) }.
Proof.
  apply OsPathFacts.dirname_shorter. assumption.
Qed.

(** Looking for [name] in the directories [ds] in turn, stopping at the
    first that holds it or cannot be listed: the outcome, and the events in
    the order they happen. *)
Fixpoint scan (fsys : filesystem) (name : string) (ds : list string)
  : (exn + option string) * list event :=
  match ds with
  | [] => (inr None, [])
  | d :: rest =>
      match probe fsys name d with
      | None => (inl OSError, [Listdir d])
      | Some true =>
          (inr (Some (join d name)),
           [Listdir d; Printed (found_message name (join d name))])
      | Some false =>
          let '(r, evs) := scan fsys name rest in (r, Listdir d :: evs)
      end
  end.

(** The world after the events [evs] have happened in [w]. *)
Definition after (w : world) (evs : list event) : world :=
  {| fs := fs w; trace := trace w ++ evs |}.


(** *** Sample machines *)

(** The working directory [/home/user] holds one directory, [foo], with one
    file in it.  [foo] can be listed under its relative and under its
    absolute name. *)
Definition foo_fs : filesystem :=
  {| listing := fun p =>
       if String.eqb p "/" then Some ["home"]
       else if String.eqb p "/home" then Some ["user"]
       else if String.eqb p "/home/user" then Some ["foo"]
       else if String.eqb p "/home/user/foo" then Some ["bar.txt"]
       else if String.eqb p "foo" then Some ["bar.txt"]
       else None;
     cwd := "/home/user" |}.

(** A small tree: [/srv] holds [app] and [ComfyUI], [/srv/app] holds [run],
    [/srv/app/run] holds [main.py]. *)
Definition srv_fs : filesystem :=
  {| listing := fun p =>
       if String.eqb p "/" then Some ["srv"]
       else if String.eqb p "/srv" then Some ["app"; "ComfyUI"]
       else if String.eqb p "/srv/app" then Some ["run"]
       else if String.eqb p "/srv/app/run" then Some ["main.py"]
       else None;
     cwd := "/srv/app/run" |}.

(** A machine that has not done anything yet. *)
Definition boot (fsys : filesystem) : world := {| fs := fsys; trace := [] |}.

End PathFinder.

(** ** The start-up helpers that call [find_path] *)

Module Startup.
Import Py OsPath PathFinder.

(** What can be raised during start-up: the exceptions of the built-in
    operations, [ImportError] (with its subclass [ModuleNotFoundError]), and
    whatever else imported code raises. *)
Inductive error : Type :=
| Builtin (e : exn)
| ImportError
| Foreign (what : string).

(** The interpreter and its machine: the world [find_path] runs in, what
    [os.path.isdir] answers, and the module search path [sys.path]. *)
Record host : Type := {
  machine : world;
  isdir : string -> bool;
  sys_path : list string
}.

Definition run (A : Type) : Type := host -> (error + A) * host.

Definition ret {A : Type} (a : A) : run A := fun h => (inr a, h).

Definition bind {A B : Type} (m : run A) (k : A -> run B) : run B :=
  fun h =>
    match m h with
    | (inr a, h') => k a h'
    | (inl e, h') => (inl e, h')
    end.

Notation "x <~ m ;; k" := (bind m (fun x => k))
  (at level 100, m at next level, right associativity).

(** [try: body  except ImportError: handler] *)
Definition except_ImportError {A : Type} (body handler : run A) : run A :=
  fun h =>
    match body h with
    | (inl ImportError, h') => handler h'
    | other => other
    end.

(** A computation on the world, run inside the host. *)
Definition on_machine {A : Type} (m : Eff.eff (S := world) A) : run A :=
  fun h =>
    let '(r, w) := m (machine h) in
    (match r with
     | inl e => inl (Builtin e)
     | inr a => inr a
     end,
     {| machine := w; isdir := isdir h; sys_path := sys_path h |}).

(** [os.path.isdir(p)]; it answers [False] where it cannot tell, and does
    not raise. *)
Definition os_path_isdir (p : string) : run bool :=
  fun h => (inr (isdir h p), h).

(** [sys.path.append(p)] *)
Definition sys_path_append (p : string) : run unit :=
  fun h =>
    (inr tt,
     {| machine := machine h; isdir := isdir h; sys_path := sys_path h ++ [p] |}).

(** The string [print] receives for [f"'{comfyui_path}' added to sys.path"]. *)
Definition added_message (comfyui_path : string) : string :=
  "'" +:+ comfyui_path +:+ "' added to sys.path".

(** [add_comfyui_directory_to_sys_path()]:
<<
    comfyui_path = find_path("ComfyUI")
    if comfyui_path is not None and os.path.isdir(comfyui_path):
        sys.path.append(comfyui_path)
        print(f"'{comfyui_path}' added to sys.path")
>> *)
Definition add_comfyui_directory_to_sys_path : run unit :=
  comfyui_path <~ on_machine (find_path "ComfyUI" None) ;;
  match comfyui_path with
  | None => ret tt
  | Some p =>
      is_directory <~ os_path_isdir p ;;
      if is_directory
      then (_ <~ sys_path_append p ;; on_machine (print (added_message p)))
      else ret tt
  end.

Definition import_failed_message : string :=
  "Could not import load_extra_path_config from main.py. Looking in utils.extra_config instead.".

Definition not_found_message : string :=
  "Could not find the extra_model_paths config file.".

Section Imports.

(** The host framework is not part of this file.  What
    [from module import name] does and yields, and what calling the imported
    [load_extra_path_config] does, are left open. *)
Context {loader : Type}.
Variable import_from : string -> string -> run loader.
Variable call : loader -> string -> run unit.

(** [add_extra_model_paths()]:
<<
    try:
        from main import load_extra_path_config
    except ImportError:
        print("Could not import load_extra_path_config from main.py. ...")
        from utils.extra_config import load_extra_path_config
    extra_model_paths = find_path("extra_model_paths.yaml")
    if extra_model_paths is not None:
        load_extra_path_config(extra_model_paths)
    else:
        print("Could not find the extra_model_paths config file.")
>> *)
Definition add_extra_model_paths : run unit :=
  load_extra_path_config <~
    except_ImportError
      (import_from "main" "load_extra_path_config")
      (_ <~ on_machine (print import_failed_message) ;;
       import_from "utils.extra_config" "load_extra_path_config") ;;
  extra_model_paths <~ on_machine (find_path "extra_model_paths.yaml" None) ;;
  match extra_model_paths with
  | Some p => call load_extra_path_config p
  | None => on_machine (print not_found_message)
  end.

End Imports.

(** *** Vocabulary for the statements about start-up *)

(** The host after the events [evs] have happened in its world. *)
Definition host_after (h : host) (evs : list event) : host :=
  {| machine := after (machine h) evs; isdir := isdir h; sys_path := sys_path h |}.

(** A host whose world is [boot fsys], with nothing on [sys.path]. *)
Definition fresh_host (fsys : filesystem) (dirs : string -> bool) : host :=
  {| machine := boot fsys; isdir := dirs; sys_path := [] |}.

End Startup.

(** ** More sample machines *)

Module Samples.
Import OsPath PathFinder Startup.

(** [/home] cannot be listed (no read permission); the directories below
    and above it can. *)
Definition locked_fs : filesystem :=
  {| listing := fun p =>
       if String.eqb p "/" then Some ["home"]
       else if String.eqb p "/home/user" then Some ["notes"]
       else None;
     cwd := "/home/user" |}.

(** [srv_fs], which also lists [/srv/app] under the name [/srv/app/]. *)
Definition slash_fs : filesystem :=
  {| listing := fun p =>
       if String.eqb p "/srv/app/" then Some ["run"] else listing srv_fs p;
     cwd := "/srv/app/" |}.

(** [srv_fs] with the configuration file next to [app]. *)
Definition config_fs : filesystem :=
  {| listing := fun p =>
       if String.eqb p "/srv" then Some ["app"; "extra_model_paths.yaml"]
       else listing srv_fs p;
     cwd := "/srv/app/run" |}.

(** [/srv/app/run] and [/] each hold an entry [models]; [/srv] and
    [/srv/app] do not.  As on any filesystem, [p/..] lists the directory
    above [p]. *)
Definition dotdot_fs : filesystem :=
  {| listing := fun p =>
       if String.eqb p "/" then Some ["srv"; "models"]
       else if String.eqb p "/srv" then Some ["app"]
       else if String.eqb p "/srv/app" then Some ["run"]
       else if String.eqb p "/srv/app/run" then Some ["models"]
       else if String.eqb p "/srv/app/run/.." then Some ["run"]
       else if String.eqb p "/srv/app/run/../.." then Some ["app"]
       else if String.eqb p "/srv/app/run/../../.." then Some ["srv"; "models"]
       else None;
     cwd := "/srv/app/run" |}.

(** Only [/srv/ComfyUI] is a directory of interest. *)
Definition comfy_dirs (p : string) : bool := String.eqb p "/srv/ComfyUI".

(** An import system in which every import succeeds, and a loader that
    does nothing. *)
Definition import_ok (module name : string) : run unit := ret tt.

Definition import_missing (module name : string) : run unit :=
  fun h => (inl ImportError, h).

(** An import system in which [main] does not export the loader and every
    other module does. *)
Definition import_not_from_main (module name : string) : run unit :=
  if String.eqb module "main" then (fun h => (inl ImportError, h)) else ret tt.

Definition load_nothing (load : unit) (p : string) : run unit := ret tt.

End Samples.

(** ** [find_path] under the interpreter's recursion limit *)

Module Recursion.
Import Py OsPath PathFinder.

(** How a call can fail when the interpreter bounds the depth of nested
    calls: with an exception of the operations it performs, or with
    [RecursionError] when one more activation is not allowed. *)
Inductive failure : Type :=
| Raised (e : exn)
| RecursionError.

(** [find_path(name, path)] when the interpreter allows [frames] more
    nested activations of it ([sys.getrecursionlimit()], 1000 unless it
    was changed, less the frames already in use).  The body is that of
    [find_path]; each activation takes one of the frames, and the call that
    finds none left raises [RecursionError]. *)
Fixpoint find_path_in_frames (frames : nat) (name : string) (path : option string)
    (w : world) : (failure + option string) * world :=
  match frames with
  | O => (inl RecursionError, w)
  | S frames' =>
      match os_listdir (path_or_cwd path w) w with
      | (inl e, w1) => (inl (Raised e), w1)
      | (inr entries, w1) =>
          if contains entries name then
            let path_name := join (path_or_cwd path w) name in
            let '(_, w2) := print (found_message name path_name) w1 in
            (inr (Some path_name), w2)
          else
            let parent_directory := dirname (path_or_cwd path w) in
            if decide (parent_directory = path_or_cwd path w)
            then (inr None, w1)
            else find_path_in_frames frames' name (Some parent_directory) w1
      end
  end.

(** *** A deep tree *)



End Recursion.

(** * Properties of the indexed value accessor *)

Module AccessorProps.
Import Py Eff Accessor.

(** *** Subscripting a sequence *)

Lemma seq_index_front {A : Type} (items : list A) (i : Z) (v : A) :
  0 <= i -> items !! Z.to_nat i = Some v -> seq_index items i = inr v.
Proof.
  intros Hi Hv. unfold seq_index.
  pose proof (lookup_lt_Some _ _ _ Hv) as Hlt.
  destruct (Z.ltb_spec i 0); [lia|].
  destruct (Z.ltb_spec i 0); [lia|].
  destruct (Z.leb_spec (Z.of_nat (length items)) i); [lia|].
  simpl. rewrite Hv. reflexivity.
Qed.

Lemma seq_index_back {A : Type} (items : list A) (i : Z) :
  i < 0 -> - i <= Z.of_nat (length items) ->
  exists v, items !! Z.to_nat (Z.of_nat (length items) + i) = Some v
            /\ seq_index items i = inr v.
Proof.
  intros Hneg Hle.
  destruct (lookup_lt_is_Some_2 items (Z.to_nat (Z.of_nat (length items) + i)))
    as [v Hv]; [lia|].
  exists v. split; [exact Hv|]. unfold seq_index.
  destruct (Z.ltb_spec i 0); [|lia].
  destruct (Z.ltb_spec (i + Z.of_nat (length items)) 0); [lia|].
  destruct (Z.leb_spec (Z.of_nat (length items)) (i + Z.of_nat (length items))); [lia|].
  simpl. rewrite Z.add_comm, Hv. reflexivity.
Qed.

Lemma seq_index_out_of_range {A : Type} (items : list A) (i : Z) :
  i < - Z.of_nat (length items) \/ Z.of_nat (length items) <= i ->
  seq_index items i = inl IndexError.
Proof.
  intros H. unfold seq_index.
  destruct (Z.ltb_spec i 0).
  - destruct (Z.ltb_spec (i + Z.of_nat (length items)) 0); [reflexivity|lia].
  - destruct (Z.ltb_spec i 0); [lia|].
    destruct (Z.leb_spec (Z.of_nat (length items)) i); [reflexivity|lia].
Qed.

Lemma seq_index_not_KeyError {A : Type} (items : list A) (i : Z) :
  seq_index items i <> inl KeyError.
Proof.
  unfold seq_index. destruct (_ || _); [discriminate|].
  destruct (items !! _); discriminate.
Qed.

Lemma getitem_sequence (obj : value) (items : list value) (i : Z) :
  as_sequence obj = Some items -> getitem obj (KInt i) = seq_index items i.
Proof.
  destruct obj; simpl; intros H; try discriminate; inversion H; reflexivity.
Qed.

Lemma getitem_sequence_str (obj : value) (items : list value) (s : string) :
  as_sequence obj = Some items -> getitem obj (KStr s) = inl TypeError.
Proof.
  destruct obj; simpl; intros H; try discriminate; reflexivity.
Qed.

Lemma getitem_KeyError_dict (obj : value) (k : key) :
  getitem obj k = inl KeyError ->
  exists entries, obj = VDict entries /\ entries !! k = None.
Proof.
  destruct obj; simpl; try discriminate.
  - destruct k; [|discriminate]. intros H.
    destruct (seq_index _ i) eqn:E; [|discriminate].
    inversion H; subst. exfalso. eapply seq_index_not_KeyError; eauto.
  - destruct k; [|discriminate]. intros H. exfalso.
    eapply seq_index_not_KeyError; eauto.
  - destruct k; [|discriminate]. intros H. exfalso.
    eapply seq_index_not_KeyError; eauto.
  - intros H. exists entries. split; [reflexivity|].
    destruct (entries !! k); [discriminate|reflexivity].
Qed.

(** *** The three ways a call can go, by the outcome of [obj[index]] *)

Lemma get_value_at_index_direct_ok (obj : value) (index : Z) (v : value)
    (log : list access) :
  getitem obj (KInt index) = inr v ->
  get_value_at_index obj index log = (inr v, log ++ [Subscript obj (KInt index)]).
Proof.
  intros H. unfold get_value_at_index, try_except, subscript. rewrite H. reflexivity.
Qed.

Lemma get_value_at_index_direct_other (obj : value) (index : Z) (e : exn)
    (log : list access) :
  getitem obj (KInt index) = inl e -> e <> KeyError ->
  get_value_at_index obj index log = (inl e, log ++ [Subscript obj (KInt index)]).
Proof.
  intros H Hne. unfold get_value_at_index, try_except, subscript. rewrite H.
  destruct (decide (e = KeyError)); [contradiction|reflexivity].
Qed.

Lemma get_value_at_index_fallback (obj : value) (index : Z) (log : list access) :
  getitem obj (KInt index) = inl KeyError ->
  get_value_at_index obj index log =
    match getitem obj (KStr "result") with
    | inr r =>
        (getitem r (KInt index),
         log ++ [Subscript obj (KInt index); Subscript obj (KStr "result");
                 Subscript r (KInt index)])
    | inl e =>
        (inl e, log ++ [Subscript obj (KInt index); Subscript obj (KStr "result")])
    end.
Proof.
  intros H. unfold get_value_at_index, try_except, bind, subscript. rewrite H.
  destruct (decide (KeyError = KeyError)); [|contradiction].
  destruct (getitem obj (KStr "result")); rewrite <- !app_assoc; reflexivity.
Qed.

(** *** The claims *)

(** C1.  Whatever the object and the index, the call evaluates
    [obj["result"]] if and only if [obj[index]] raised [KeyError].  When
    [obj] is a sequence and [index] is out of its range, [obj[index]] raises
    [IndexError], the call raises that [IndexError], and [obj[index]] is the
    only subscript it evaluated. *)
Theorem fallback_only_on_missing_key (obj : value) (index : Z) (log : list access) :
  exists res evs,
    get_value_at_index obj index log = (res, log ++ evs)
    /\ (Subscript obj (KStr "result") ∈ evs <-> getitem obj (KInt index) = inl KeyError)
    /\ (forall items,
          as_sequence obj = Some items ->
          index < - Z.of_nat (length items) \/ Z.of_nat (length items) <= index ->
          getitem obj (KInt index) = inl IndexError
          /\ res = inl IndexError
          /\ evs = [Subscript obj (KInt index)]).
Proof.
  destruct (getitem obj (KInt index)) as [e|v] eqn:Hd.
  - destruct (decide (e = KeyError)) as [->|Hne].
    + rewrite (get_value_at_index_fallback _ _ _ Hd).
      destruct (getitem_KeyError_dict _ _ Hd) as (entries & -> & _).
      destruct (getitem (VDict entries) (KStr "result")) as [e'|r];
        eexists _, _; (split; [reflexivity|]); (split; [|discriminate]);
        (split; [reflexivity|]); intros _; set_solver.
    + rewrite (get_value_at_index_direct_other _ _ _ _ Hd Hne).
      eexists _, _. split; [reflexivity|]. split.
      * split; [|congruence]. intros Hin%list_elem_of_singleton. discriminate.
      * intros items Hs Hr. rewrite (getitem_sequence _ _ _ Hs) in Hd.
        rewrite (seq_index_out_of_range _ _ Hr) in Hd. inversion Hd; subst. auto.
  - rewrite (get_value_at_index_direct_ok _ _ _ _ Hd).
    eexists _, _. split; [reflexivity|]. split.
    + split; [|discriminate]. intros Hin%list_elem_of_singleton. discriminate.
    + intros items Hs Hr. rewrite (getitem_sequence _ _ _ Hs) in Hd.
      rewrite (seq_index_out_of_range _ _ Hr) in Hd. discriminate.
Qed.

(** C2.  For a mapping without the key [i] whose key ["result"] holds a
    sequence [r], and an index valid for [r] (from the front, [0 <= i <
    len(r)], or from the back, [-len(r) <= i < 0]), the call returns the
    element [r[i]], after evaluating [m[i]], [m["result"]] and [r[i]] in
    that order. *)
Theorem fallback_returns_nested_element (m : gmap key value) (i : Z) (r : value)
    (items : list value) (log : list access) :
  m !! KInt i = None ->
  m !! KStr "result" = Some r ->
  as_sequence r = Some items ->
  - Z.of_nat (length items) <= i < Z.of_nat (length items) ->
  exists v,
    items !! Z.to_nat (if i <? 0 then Z.of_nat (length items) + i else i) = Some v
    /\ getitem r (KInt i) = inr v
    /\ get_value_at_index (VDict m) i log =
         (inr v, log ++ [Subscript (VDict m) (KInt i);
                         Subscript (VDict m) (KStr "result");
                         Subscript r (KInt i)]).
Proof.
  intros Hi Hres Hseq Hrange.
  assert (Hel : exists v,
             items !! Z.to_nat (if i <? 0 then Z.of_nat (length items) + i else i) = Some v
             /\ seq_index items i = inr v).
  { destruct (Z.ltb_spec i 0).
    - apply seq_index_back; lia.
    - destruct (lookup_lt_is_Some_2 items (Z.to_nat i)) as [v Hv]; [lia|].
      exists v. split; [exact Hv|]. apply seq_index_front; [lia|exact Hv]. }
  destruct Hel as (v & Hv & Hidx).
  assert (Hget : getitem r (KInt i) = inr v).
  { rewrite (getitem_sequence _ _ _ Hseq). exact Hidx. }
  exists v. split; [exact Hv|]. split; [exact Hget|].
  rewrite get_value_at_index_fallback by (simpl; rewrite Hi; reflexivity).
  simpl. rewrite Hres, Hget. reflexivity.
Qed.

(** C6.  For a mapping with neither the key [i] nor the key ["result"],
    the call raises the [KeyError] of [m["result"]]: both subscripts were
    evaluated and nothing else was. *)
Theorem missing_both_keys_raises (m : gmap key value) (i : Z) (log : list access) :
  m !! KInt i = None ->
  m !! KStr "result" = None ->
  get_value_at_index (VDict m) i log =
    (inl KeyError, log ++ [Subscript (VDict m) (KInt i);
                           Subscript (VDict m) (KStr "result")]).
Proof.
  intros Hi Hres.
  rewrite get_value_at_index_fallback by (simpl; rewrite Hi; reflexivity).
  simpl. rewrite Hres. reflexivity.
Qed.

(** C7.  When [obj] is a sequence and [0 <= index < len(obj)], or [obj] is
    a mapping that holds the key [index], the call returns the element
    [obj[index]] and evaluates no other subscript. *)
Theorem direct_lookup_is_returned (obj : value) (index : Z) (v : value)
    (log : list access) :
  (exists items, as_sequence obj = Some items
                 /\ 0 <= index /\ items !! Z.to_nat index = Some v)
  \/ (exists m, obj = VDict m /\ m !! KInt index = Some v) ->
  getitem obj (KInt index) = inr v
  /\ get_value_at_index obj index log = (inr v, log ++ [Subscript obj (KInt index)]).
Proof.
  intros H.
  assert (Hget : getitem obj (KInt index) = inr v).
  { destruct H as [(items & Hs & H0 & Hv) | (m & -> & Hv)].
    - rewrite (getitem_sequence _ _ _ Hs). apply seq_index_front; assumption.
    - simpl. rewrite Hv. reflexivity. }
  split; [exact Hget|]. apply get_value_at_index_direct_ok, Hget.
Qed.

(** C10.  For a sequence of length [n] and an index [-n <= index < 0], the
    call returns the element at position [n + index], that is the one
    counted from the end, and raises nothing. *)
Theorem negative_index_counts_from_end (obj : value) (items : list value)
    (index : Z) (log : list access) :
  as_sequence obj = Some items ->
  index < 0 ->
  Z.abs index <= Z.of_nat (length items) ->
  exists v,
    items !! Z.to_nat (Z.of_nat (length items) + index) = Some v
    /\ get_value_at_index obj index log = (inr v, log ++ [Subscript obj (KInt index)]).
Proof.
  intros Hs Hneg Hle.
  destruct (seq_index_back items index) as (v & Hv & Hget); [lia|lia|].
  exists v. split; [exact Hv|].
  apply get_value_at_index_direct_ok. rewrite (getitem_sequence _ _ _ Hs). exact Hget.
Qed.

(** *** The claims at concrete inputs *)

Lemma fallback_only_on_missing_key_witness :
  get_value_at_index (VList [VInt 7]) 3 []
  = (inl IndexError, [Subscript (VList [VInt 7]) (KInt 3)]).
Proof.
  destruct (fallback_only_on_missing_key (VList [VInt 7]) 3 [])
    as (res & evs & Hrun & _ & Hout).
  destruct (Hout [VInt 7] eq_refl) as (_ & -> & ->); [right; simpl; lia|].
  exact Hrun.
Defined.

Lemma fallback_returns_nested_element_witness :
  exists v,
    [VStr "a"; VStr "b"] !! Z.to_nat (if 1 <? 0 then Z.of_nat (length [VStr "a"; VStr "b"]) + 1 else 1) = Some v
    /\ getitem (VTuple [VStr "a"; VStr "b"]) (KInt 1) = inr v
    /\ get_value_at_index
         (VDict {[ KStr "result" := VTuple [VStr "a"; VStr "b"] ]}) 1 [] =
         (inr v,
          [] ++ [Subscript (VDict {[ KStr "result" := VTuple [VStr "a"; VStr "b"] ]}) (KInt 1);
                 Subscript (VDict {[ KStr "result" := VTuple [VStr "a"; VStr "b"] ]}) (KStr "result");
                 Subscript (VTuple [VStr "a"; VStr "b"]) (KInt 1)]).
Proof.
  apply (fallback_returns_nested_element
           {[ KStr "result" := VTuple [VStr "a"; VStr "b"] ]} 1
           (VTuple [VStr "a"; VStr "b"]) [VStr "a"; VStr "b"] []).
  - reflexivity.
  - reflexivity.
  - reflexivity.
  - simpl. lia.
Defined.

Lemma missing_both_keys_raises_witness :
  get_value_at_index (VDict {[ KStr "results" := VList [VInt 1] ]}) 0 [] =
    (inl KeyError,
     [] ++ [Subscript (VDict {[ KStr "results" := VList [VInt 1] ]}) (KInt 0);
            Subscript (VDict {[ KStr "results" := VList [VInt 1] ]}) (KStr "result")]).
Proof.
  apply (missing_both_keys_raises {[ KStr "results" := VList [VInt 1] ]} 0 []).
  - reflexivity.
  - reflexivity.
Defined.

Lemma direct_lookup_is_returned_witness :
  getitem (VList [VInt 5; VInt 6]) (KInt 1) = inr (VInt 6)
  /\ get_value_at_index (VList [VInt 5; VInt 6]) 1 [] =
       (inr (VInt 6), [] ++ [Subscript (VList [VInt 5; VInt 6]) (KInt 1)]).
Proof.
  apply (direct_lookup_is_returned (VList [VInt 5; VInt 6]) 1 (VInt 6) []).
  left. exists [VInt 5; VInt 6]. split; [reflexivity|]. split; [lia|reflexivity].
Defined.

Lemma negative_index_counts_from_end_witness :
  exists v,
    [VInt 5; VInt 6; VInt 7] !! Z.to_nat (Z.of_nat (length [VInt 5; VInt 6; VInt 7]) + -1) = Some v
    /\ get_value_at_index (VList [VInt 5; VInt 6; VInt 7]) (-1) [] =
         (inr v, [] ++ [Subscript (VList [VInt 5; VInt 6; VInt 7]) (KInt (-1))]).
Proof.
  apply (negative_index_counts_from_end
           (VList [VInt 5; VInt 6; VInt 7]) [VInt 5; VInt 6; VInt 7] (-1) []).
  - reflexivity.
  - lia.
  - simpl. lia.
Defined.

End AccessorProps.

(** * Facts about [dirname] *)

Module OsPathProps.
Import OsPath OsPathFacts.

Lemma rfind_bounds (s : string) (c : ascii) :
  -1 <= rfind s c < Z.of_nat (String.length s).
Proof.
  induction s as [|a s IH]; simpl; [lia|].
  destruct (Z.leb_spec 0 (rfind s c)); [lia|].
  destruct (Ascii.eqb a c); lia.
Qed.

Lemma rfind_at_end (s : string) (c : ascii) :
  s <> "" -> Z.of_nat (String.length s) - 1 <= rfind s c -> endswith s c = true.
Proof.
  induction s as [|a s IH]; [congruence|]. intros _. simpl rfind.
  pose proof (rfind_bounds s c) as Hb.
  destruct s as [|b s].
  - simpl. destruct (Ascii.eqb a c); [reflexivity|lia].
  - change (endswith (String a (String b s)) c) with (endswith (String b s) c).
    destruct (Z.leb_spec 0 (rfind (String b s) c)).
    + intros H'. apply IH; [discriminate|]. cbn [String.length] in *. lia.
    + cbn [String.length]. destruct (Ascii.eqb a c); lia.
Qed.

Lemma endswith_rstrip_shorter (s : string) (c : ascii) :
  endswith s c = true -> (String.length (rstrip s c) < String.length s)%nat.
Proof.
  induction s as [|a s IH]; [discriminate|].
  destruct s as [|b s].
  - simpl. intros ->. simpl. lia.
  - change (endswith (String a (String b s)) c) with (endswith (String b s) c).
    intros H. specialize (IH H).
    assert (Hl : (1 <= String.length (String b s))%nat) by (simpl; lia).
    remember (String b s) as t eqn:Ht. clear Ht. simpl.
    destruct (rstrip t c); [destruct (Ascii.eqb a c)|]; simpl in *; lia.
Qed.

Lemma startswith_substring (n : nat) (s : string) (c : ascii) :
  startswith (substring 0 n s) c = true -> startswith s c = true.
Proof. destruct s, n; simpl; auto; discriminate. Qed.

Lemma startswith_rstrip (s : string) (c c' : ascii) :
  startswith (rstrip s c) c' = true -> startswith s c' = true.
Proof.
  destruct s as [|a s]; simpl; [auto|].
  destruct (rstrip s c); [destruct (Ascii.eqb a c)|]; simpl; auto; discriminate.
Qed.

Lemma str_mul_startswith (c : ascii) (n : nat) :
  str_mul c n <> "" -> startswith (str_mul c n) c = true.
Proof. destruct n; simpl; [congruence|]. intros _. apply Ascii.eqb_refl. Qed.

(** A path without a separator has the empty parent. *)
Lemma dirname_single_component (p : string) :
  rfind p sep = -1 -> dirname p = "".
Proof.
  intros H. unfold dirname. rewrite H. simpl.
  unfold slice_to. simpl. destruct p; reflexivity.
Qed.

(** The parent of a relative path is relative. *)
Lemma dirname_relative (p : string) :
  startswith p sep = false -> startswith (dirname p) sep = false.
Proof.
  intros H. destruct (startswith (dirname p) sep) eqn:E; [|reflexivity].
  rewrite <- H. symmetry. revert E. unfold dirname, slice_to.
  destruct (_ && _); intros E.
  - apply startswith_rstrip in E. eapply startswith_substring; eauto.
  - eapply startswith_substring; eauto.
Qed.

(** The only paths that are their own parent are the empty path and the
    runs of separators. *)
Lemma dirname_fixpoint (p : string) :
  dirname p = p -> p = "" \/ startswith p sep = true.
Proof.
  unfold dirname.
  set (head := slice_to p (rfind p sep + 1)).
  pose proof (slice_to_length p (rfind p sep + 1)) as H1. fold head in H1.
  pose proof (rstrip_length head sep) as H2.
  destruct (negb (String.eqb head "")) eqn:Hemp; simpl.
  - destruct (negb (String.eqb head (str_mul sep (String.length head)))) eqn:Hall; simpl.
    + intros E. exfalso.
      assert (Hlen : String.length head = String.length p) by (pose proof (f_equal String.length E); lia).
      assert (Hhead : head = p) by (apply slice_to_full; exact Hlen).
      assert (Hp : p <> "").
      { intros ->. rewrite Hhead in Hemp. discriminate. }
      assert (Hend : endswith p sep = true).
      { apply rfind_at_end; [exact Hp|].
        pose proof (rfind_bounds p sep).
        unfold head, slice_to in Hlen. rewrite substring_0_length in Hlen.
        destruct (Z.ltb_spec (rfind p sep + 1) 0); lia. }
      apply endswith_rstrip_shorter in Hend.
      rewrite Hhead in E. rewrite E in Hend. lia.
    + intros E. right. rewrite <- E.
      apply negb_false_iff, String.eqb_eq in Hall. rewrite Hall.
      apply str_mul_startswith. rewrite <- Hall.
      intros Hn. rewrite Hn in Hemp. discriminate.
  - intros E. left. rewrite <- E.
    apply negb_false_iff, String.eqb_eq in Hemp. exact Hemp.
Qed.

(** *** Appending a component *)

Lemma rfind_app (q s : string) (c : ascii) :
  rfind (q +:+ s) c =
    if 0 <=? rfind s c then Z.of_nat (String.length q) + rfind s c else rfind q c.
Proof.
  induction q as [|a q IH].
  - change ("" +:+ s) with s. pose proof (rfind_bounds s c).
    destruct (Z.leb_spec 0 (rfind s c)); simpl; lia.
  - change (String a q +:+ s) with (String a (q +:+ s)). simpl rfind. rewrite IH.
    destruct (Z.leb_spec 0 (rfind s c)).
    + destruct (Z.leb_spec 0 (Z.of_nat (String.length q) + rfind s c)); [|lia].
      cbn [String.length]. lia.
    + reflexivity.
Qed.

Lemma substring_0_app (q s : string) (k : nat) :
  substring 0 (String.length q + k) (q +:+ s) = q +:+ substring 0 k s.
Proof.
  induction q as [|a q IH]; simpl; [reflexivity|].
  rewrite IH. reflexivity.
Qed.

Lemma string_length_app (q s : string) :
  String.length (q +:+ s) = (String.length q + String.length s)%nat.
Proof. induction q as [|a q IH]; simpl; [reflexivity|]. rewrite IH. reflexivity. Qed.

Lemma rstrip_app_sep (q : string) (c : ascii) :
  rstrip (q +:+ String c "") c = rstrip q c.
Proof.
  induction q as [|a q IH]; simpl.
  - rewrite Ascii.eqb_refl. reflexivity.
  - rewrite IH. reflexivity.
Qed.

Lemma rstrip_str_mul (c : ascii) (n : nat) : rstrip (str_mul c n) c = "".
Proof.
  induction n as [|n IH]; simpl; [reflexivity|].
  rewrite IH, Ascii.eqb_refl. reflexivity.
Qed.


End OsPathProps.

(** * Properties of the ancestor path finder *)

Module PathFinderProps.
Import Py Eff OsPath OsPathFacts OsPathProps PathFinder.

(** *** Induction along the chain of parents *)

Lemma path_ind (P : string -> Prop) :
  (forall p, dirname p = p -> P p) ->
  (forall p, dirname p <> p -> P (dirname p) -> P p) ->
  forall p, P p.
Proof.
  intros Hroot Hstep p.
  remember (String.length p) as n eqn:Hn. revert p Hn.
  induction n as [n IH] using lt_wf_ind. intros p ->.
  destruct (decide (dirname p = p)) as [E|E].
  - apply Hroot, E.
  - apply Hstep; [exact E|].
    apply (IH (String.length (dirname p))); [|reflexivity].
    apply dirname_shorter, E.
Qed.

Lemma ancestors_root (p : string) : dirname p = p -> ancestors p = [p].
Proof.
  intros E. rewrite ancestors_equation_1.
  destruct (decide (dirname p = p)); [reflexivity|contradiction].
Qed.

Lemma ancestors_step (p : string) :
  dirname p <> p -> ancestors p = p :: ancestors (dirname p).
Proof.
  intros E. rewrite ancestors_equation_1.
  destruct (decide (dirname p = p)); [contradiction|reflexivity].
Qed.

Lemma ancestors_length (p : string) :
  (1 <= length (ancestors p) <= S (String.length p))%nat.
Proof.
  induction p as [p E | p E IH] using path_ind.
  - rewrite (ancestors_root _ E). simpl. lia.
  - rewrite (ancestors_step _ E). simpl.
    pose proof (dirname_shorter _ E). lia.
Qed.

(** Consecutive members of the chain are a directory and its parent, and
    only the last member is its own parent. *)
Lemma ancestors_consecutive (p : string) (i : nat) (d d' : string) :
  ancestors p !! i = Some d -> ancestors p !! S i = Some d' ->
  d' = dirname d /\ dirname d <> d.
Proof.
  revert i. induction p as [p E | p E IH] using path_ind; intros i.
  - rewrite (ancestors_root _ E). destruct i; discriminate.
  - rewrite (ancestors_step _ E). destruct i as [|i]; simpl.
    + intros [= <-] H. split; [|exact E].
      destruct (decide (dirname (dirname p) = dirname p)) as [E'|E'].
      * rewrite (ancestors_root _ E') in H. simpl in H. congruence.
      * rewrite (ancestors_step _ E') in H. simpl in H. congruence.
    + apply IH.
Qed.


(** A proper initial part of the chain does not end in a directory that is
    its own parent. *)
Lemma ancestors_prefix_root (p : string) (ds : list string) (root : string) :
  ds `prefix_of` ancestors p -> last ds = Some root -> dirname root = root ->
  ds = ancestors p.
Proof.
  revert ds. induction p as [p E | p E IH] using path_ind; intros ds.
  - rewrite (ancestors_root _ E). intros [k Hk] Hl _.
    destruct ds as [|d ds]; [discriminate|].
    destruct ds; [|discriminate]. simpl in Hk. inversion Hk. reflexivity.
  - rewrite (ancestors_step _ E). intros [k Hk] Hl Hr.
    destruct ds as [|d ds]; [discriminate|].
    simpl in Hk. inversion Hk as [[Hd Hrest]]. subst d.
    destruct ds as [|d2 ds].
    + simpl in Hl. inversion Hl; subst. contradiction.
    + f_equal. apply (IH (d2 :: ds)).
      * exists k. exact Hrest.
      * exact Hl.
      * exact Hr.
Qed.

(** From a relative start the chain runs into the empty path. *)
Lemma ancestors_relative (p : string) :
  startswith p sep = false -> "" ∈ ancestors p.
Proof.
  induction p as [p E | p E IH] using path_ind; intros Hrel.
  - rewrite (ancestors_root _ E).
    destruct (dirname_fixpoint _ E) as [-> | Habs]; [|congruence].
    apply list_elem_of_singleton. reflexivity.
  - rewrite (ancestors_step _ E). apply elem_of_cons. right.
    apply IH, dirname_relative, Hrel.
Qed.

(** *** One step of the search *)

Lemma after_emit (w : world) (e : event) (evs : list event) :
  after (emit e w) evs = after w (e :: evs).
Proof. unfold after, emit. simpl. rewrite <- app_assoc. reflexivity. Qed.

Lemma emit_after (w : world) (e : event) : emit e w = after w [e].
Proof. reflexivity. Qed.

Lemma find_path_unfold (name : string) (path : option string) (w : world) :
  find_path name path w =
    let p := path_or_cwd path w in
    match probe (fs w) name p with
    | None => (inl OSError, after w [Listdir p])
    | Some true =>
        (inr (Some (join p name)),
         after w [Listdir p; Printed (found_message name (join p name))])
    | Some false =>
        if decide (dirname p = p) then (inr None, after w [Listdir p])
        else find_path name (Some (dirname p)) (after w [Listdir p])
    end.
Proof.
  rewrite find_path_equation_1. unfold os_listdir, probe. cbv zeta.
  destruct (String.eqb (path_or_cwd path w) ""); [reflexivity|].
  destruct (listing (fs w) (path_or_cwd path w)) as [entries|]; [|reflexivity].
  cbn. destruct (contains entries name); cbn.
  - unfold after, emit. simpl. rewrite <- app_assoc. reflexivity.
  - destruct (decide _); reflexivity.
Qed.

(** *** The search is a scan of the chain of parents *)

Lemma find_path_resolved (name : string) (path : option string) (w : world) :
  find_path name path w = find_path name (Some (path_or_cwd path w)) w.
Proof. rewrite (find_path_unfold name path), (find_path_unfold name (Some _)). reflexivity. Qed.

Lemma find_path_from_scan (name p : string) (w : world) :
  find_path name (Some p) w =
    (fst (scan (fs w) name (ancestors p)),
     after w (snd (scan (fs w) name (ancestors p)))).
Proof.
  revert w. induction p as [p E | p E IH] using path_ind; intros w;
    rewrite find_path_unfold; cbn [path_or_cwd]; cbv zeta.
  - rewrite (ancestors_root _ E). simpl.
    destruct (probe (fs w) name p) as [[|]|]; try reflexivity.
    destruct (decide (dirname p = p)); [reflexivity|contradiction].
  - rewrite (ancestors_step _ E). simpl.
    destruct (probe (fs w) name p) as [[|]|]; try reflexivity.
    destruct (decide (dirname p = p)); [contradiction|].
    rewrite IH. change (fs (after w [Listdir p])) with (fs w).
    destruct (scan (fs w) name (ancestors (dirname p))) as [r evs]. simpl.
    f_equal. unfold after. simpl. rewrite <- app_assoc. reflexivity.
Qed.

Lemma find_path_scan (name : string) (path : option string) (w : world) :
  find_path name path w =
    (fst (scan (fs w) name (ancestors (path_or_cwd path w))),
     after w (snd (scan (fs w) name (ancestors (path_or_cwd path w))))).
Proof. rewrite find_path_resolved. apply find_path_from_scan. Qed.

(** *** What a scan yields *)

Lemma scan_none (fsys : filesystem) (name : string) (ds : list string) :
  Forall (fun d => probe fsys name d = Some false) ds ->
  scan fsys name ds = (inr None, Listdir <$> ds).
Proof.
  induction 1 as [|d ds Hd _ IH]; simpl; [reflexivity|].
  rewrite Hd, IH. reflexivity.
Qed.

Lemma scan_first_match (fsys : filesystem) (name : string)
    (nearer : list string) (d : string) (farther : list string) :
  Forall (fun x => probe fsys name x = Some false) nearer ->
  probe fsys name d = Some true ->
  scan fsys name (nearer ++ d :: farther) =
    (inr (Some (join d name)),
     (Listdir <$> nearer) ++ [Listdir d; Printed (found_message name (join d name))]).
Proof.
  intros Hn Hd. induction Hn as [|x xs Hx _ IH]; simpl.
  - rewrite Hd. reflexivity.
  - rewrite Hx, IH. reflexivity.
Qed.

Lemma scan_first_failure (fsys : filesystem) (name : string)
    (nearer : list string) (d : string) (farther : list string) :
  Forall (fun x => probe fsys name x = Some false) nearer ->
  probe fsys name d = None ->
  scan fsys name (nearer ++ d :: farther) =
    (inl OSError, Listdir <$> (nearer ++ [d])).
Proof.
  intros Hn Hd. induction Hn as [|x xs Hx _ IH]; simpl.
  - rewrite Hd. reflexivity.
  - rewrite Hx, IH. reflexivity.
Qed.

(** A scan ends in exactly one of three ways. *)
Lemma scan_cases (fsys : filesystem) (name : string) (ds : list string) :
  (Forall (fun d => probe fsys name d = Some false) ds
   /\ scan fsys name ds = (inr None, Listdir <$> ds))
  \/ (exists nearer d farther,
        ds = nearer ++ d :: farther
        /\ Forall (fun x => probe fsys name x = Some false) nearer
        /\ probe fsys name d = None
        /\ scan fsys name ds = (inl OSError, Listdir <$> (nearer ++ [d])))
  \/ (exists nearer d farther,
        ds = nearer ++ d :: farther
        /\ Forall (fun x => probe fsys name x = Some false) nearer
        /\ probe fsys name d = Some true
        /\ scan fsys name ds =
             (inr (Some (join d name)),
              (Listdir <$> (nearer ++ [d]))
                ++ [Printed (found_message name (join d name))])).
Proof.
  induction ds as [|d ds IH].
  - left. split; [constructor|reflexivity].
  - destruct (probe fsys name d) as [[|]|] eqn:Hd.
    + right; right. exists [], d, ds. simpl. rewrite Hd. auto.
    + destruct IH as [[Hall Hs] | [(n & x & f & -> & Hn & Hx & Hs) | (n & x & f & -> & Hn & Hx & Hs)]].
      * left. split; [constructor; assumption|]. simpl. rewrite Hd, Hs. reflexivity.
      * right; left. exists (d :: n), x, f. simpl. rewrite Hd, Hs. auto.
      * right; right. exists (d :: n), x, f. simpl. rewrite Hd, Hs. auto.
    + right; left. exists [], d, ds. simpl. rewrite Hd. auto.
Qed.

(** *** More on the chain of parents *)

Lemma ancestors_head (p : string) : head (ancestors p) = Some p.
Proof.
  destruct (decide (dirname p = p)) as [E|E].
  - rewrite (ancestors_root _ E). reflexivity.
  - rewrite (ancestors_step _ E). reflexivity.
Qed.

Lemma ancestors_lookup (p : string) (k : nat) (d : string) :
  ancestors p !! k = Some d -> d = Nat.iter k dirname p.
Proof.
  revert d. induction k as [|k IH]; intros d H.
  - pose proof (ancestors_head p) as Hh. rewrite head_lookup in Hh. simpl. congruence.
  - destruct (lookup_lt_is_Some_2 (ancestors p) k) as [x Hx].
    { apply lookup_lt_Some in H. lia. }
    destruct (ancestors_consecutive _ _ _ _ Hx H) as [-> _].
    simpl. f_equal. apply IH, Hx.
Qed.





(** *** Corollaries of the scan *)

(** Nothing found anywhere on the chain, every directory of which can be
    listed: the absent result, after listing the whole chain. *)
Lemma find_path_not_found (name : string) (path : option string) (w : world) :
  Forall (fun d => probe (fs w) name d = Some false) (ancestors (path_or_cwd path w)) ->
  find_path name path w =
    (inr None, after w (Listdir <$> ancestors (path_or_cwd path w))).
Proof. intros H. rewrite find_path_scan, (scan_none _ _ _ H). reflexivity. Qed.

(** A match in the starting directory: one listing, no ascent. *)
Lemma find_path_match_in_start (name : string) (path : option string) (w : world) :
  probe (fs w) name (path_or_cwd path w) = Some true ->
  find_path name path w =
    (inr (Some (join (path_or_cwd path w) name)),
     after w [Listdir (path_or_cwd path w);
              Printed (found_message name (join (path_or_cwd path w) name))]).
Proof. intros H. rewrite find_path_unfold. cbv zeta. rewrite H. reflexivity. Qed.

(** A match two levels up and none closer: three listings, and the path
    under the grandparent. *)
Lemma find_path_match_two_levels_up (name : string) (path : option string) (w : world) :
  let start := path_or_cwd path w in
  probe (fs w) name start = Some false ->
  probe (fs w) name (dirname start) = Some false ->
  probe (fs w) name (dirname (dirname start)) = Some true ->
  find_path name path w =
    (inr (Some (join (dirname (dirname start)) name)),
     after w [Listdir start; Listdir (dirname start); Listdir (dirname (dirname start));
              Printed (found_message name (join (dirname (dirname start)) name))]).
Proof.
  intros start H0 H1 H2.
  assert (E0 : dirname start <> start).
  { intros E. rewrite !E in H2. congruence. }
  assert (E1 : dirname (dirname start) <> dirname start).
  { intros E. rewrite E in H2. congruence. }
  rewrite find_path_unfold. cbv zeta. fold start. rewrite H0.
  destruct (decide (dirname start = start)); [contradiction|].
  rewrite find_path_unfold. cbn [path_or_cwd fs after]. cbv zeta. rewrite H1.
  destruct (decide (dirname (dirname start) = dirname start)); [contradiction|].
  rewrite find_path_unfold. cbn [path_or_cwd fs after]. cbv zeta. rewrite H2.
  unfold after. cbn [fs trace]. rewrite <- !app_assoc. reflexivity.
Qed.

(** With a name that is not itself rooted, joining puts exactly one
    separator between the directory and the name. *)
Lemma join_plain (d name : string) :
  startswith name sep = false -> d <> "" ->
  join d name = if endswith d sep then d +:+ name else d +:+ "/" +:+ name.
Proof.
  intros Hn Hd. unfold join. rewrite Hn.
  destruct (String.eqb_spec d ""); [contradiction|].
  simpl. destruct (endswith d sep); reflexivity.
Qed.


(** *** The claims *)

Lemma join_explicit (d name : string) :
  d <> "" ->
  join d name =
    if startswith name sep then name
    else if endswith d sep then d +:+ name
    else d +:+ "/" +:+ name.
Proof.
  intros Hd. unfold join. destruct (startswith name sep); [reflexivity|].
  destruct (String.eqb_spec d ""); [contradiction|].
  simpl. destruct (endswith d sep); reflexivity.
Qed.

(** Along the chain of parents that [dirname] computes.  Let that chain,
    from the start on, be [nearer], then [d], then [farther].  When every
    directory of [nearer] can be listed and holds no entry called [name],
    and [d] holds one, the call returns the path of that entry under [d]:
    [d], one separator unless [d] ends with one, and [name] (or [name]
    alone, should it begin with a separator).  It has listed [nearer] and
    [d] in that order, printed the match, and listed nothing of [farther].
    [d] is the start itself when [nearer] is empty, and the parent of its
    parent when [nearer] has two members. *)
Lemma find_path_nearest_on_chain (name : string) (path : option string) (w : world)
    (nearer : list string) (d : string) (farther : list string) :
  ancestors (path_or_cwd path w) = nearer ++ d :: farther ->
  Forall (fun x => probe (fs w) name x = Some false) nearer ->
  probe (fs w) name d = Some true ->
  d = Nat.iter (length nearer) dirname (path_or_cwd path w)
  /\ exists p,
       p = (if startswith name sep then name
            else if endswith d sep then d +:+ name
            else d +:+ "/" +:+ name)
       /\ find_path name path w =
            (inr (Some p),
             after w ((Listdir <$> nearer)
                        ++ [Listdir d; Printed (name +:+ " found: " +:+ p)])).
Proof.
  intros Hchain Hnearer Hd. split.
  - apply ancestors_lookup. rewrite Hchain.
    rewrite lookup_app_r by lia. rewrite Nat.sub_diag. reflexivity.
  - exists (join d name). split.
    + apply join_explicit. intros ->. unfold probe in Hd. simpl in Hd. discriminate.
    + rewrite find_path_scan, Hchain, (scan_first_match _ _ _ _ _ Hnearer Hd).
      reflexivity.
Qed.

(** C4 at a failing input.  The working directory [/home/user] holds the
    directory [foo]; neither [foo] nor any directory above it, up to the
    root, has an entry [x].  Started from the absolute name of [foo] the
    call returns the absent result.  Started from ["foo"] it does not: it
    lists [foo], then the parent [""] that [dirname] computes for it, and
    raises the [OSError] of that second listing. *)
Theorem find_path_not_found_relative_raises :
  (forall d, d ∈ ancestors "foo" ++ ancestors "/home/user/foo" ->
             probe foo_fs "x" d <> Some true)
  /\ find_path "x" (Some "/home/user/foo") (boot foo_fs) =
       (inr None,
        after (boot foo_fs)
          [Listdir "/home/user/foo"; Listdir "/home/user"; Listdir "/home"; Listdir "/"])
  /\ find_path "x" (Some "foo") (boot foo_fs) =
       (inl OSError, after (boot foo_fs) [Listdir "foo"; Listdir ""]).
Proof.
  assert (Hrel : ancestors "foo" = ["foo"; ""]) by (vm_compute; reflexivity).
  assert (Habs : ancestors "/home/user/foo"
                 = ["/home/user/foo"; "/home/user"; "/home"; "/"])
    by (vm_compute; reflexivity).
  split; [|split].
  - rewrite Hrel, Habs. intros d Hin.
    repeat (apply elem_of_cons in Hin as [-> | Hin]; [discriminate|]).
    inversion Hin.
  - rewrite find_path_scan. cbn [path_or_cwd]. rewrite Habs. reflexivity.
  - rewrite find_path_scan. cbn [path_or_cwd]. rewrite Hrel. reflexivity.
Qed.

(** C8.  A call leaves the filesystem as it found it and adds its events to
    the trace; the same call made again right after it, or made in any
    other world with the same filesystem, has the same result and adds
    the same events. *)
Theorem find_path_repeatable (name : string) (path : option string) (w : world) :
  exists r evs,
    find_path name path w = (r, after w evs)
    /\ fs (after w evs) = fs w
    /\ find_path name path (after w evs) = (r, after (after w evs) evs)
    /\ (forall w', fs w' = fs w -> find_path name path w' = (r, after w' evs)).
Proof.
  exists (fst (scan (fs w) name (ancestors (path_or_cwd path w)))),
         (snd (scan (fs w) name (ancestors (path_or_cwd path w)))).
  split; [apply find_path_scan|]. split; [reflexivity|].
  assert (Hsame : forall w', fs w' = fs w ->
            find_path name path w' =
              (fst (scan (fs w) name (ancestors (path_or_cwd path w))),
               after w' (snd (scan (fs w) name (ancestors (path_or_cwd path w)))))).
  { intros w' Hfs. rewrite find_path_scan.
    replace (path_or_cwd path w') with (path_or_cwd path w)
      by (destruct path; simpl; congruence).
    rewrite Hfs. reflexivity. }
  split; [apply Hsame; reflexivity|exact Hsame].
Qed.

(** C9.  From a start that is a single component (it holds no separator)
    and a directory without an entry called [name], the parent computed is
    the empty string, the call goes on to list it, and raises the [OSError]
    of that listing.  And whenever a call returns the absent result, its
    start was an absolute path. *)
Theorem find_path_relative_start (name : string) (path : option string) (w : world) :
  (rfind (path_or_cwd path w) sep = -1 ->
   probe (fs w) name (path_or_cwd path w) = Some false ->
   dirname (path_or_cwd path w) = ""
   /\ find_path name path w =
        (inl OSError, after w [Listdir (path_or_cwd path w); Listdir ""]))
  /\ (fst (find_path name path w) = inr None ->
      startswith (path_or_cwd path w) sep = true).
Proof.
  set (start := path_or_cwd path w). split.
  - intros Hsingle Hprobe.
    pose proof (dirname_single_component _ Hsingle) as Hparent.
    split; [exact Hparent|].
    assert (Hne : dirname start <> start).
    { rewrite Hparent. intros <-. discriminate. }
    rewrite find_path_scan. fold start.
    rewrite (ancestors_step _ Hne), Hparent, (ancestors_root "") by reflexivity.
    simpl. rewrite Hprobe. reflexivity.
  - rewrite find_path_scan. fold start. cbn [fst]. intros Hnone.
    destruct (startswith start sep) eqn:Hrel; [reflexivity|exfalso].
    pose proof (ancestors_relative _ Hrel) as Hin.
    destruct (scan_cases (fs w) name (ancestors start))
      as [[Hall Hs] | [(n & x & f & Hc & Hn & Hx & Hs) | (n & x & f & Hc & Hn & Hx & Hs)]].
    + rewrite Forall_forall in Hall. specialize (Hall _ Hin). discriminate.
    + rewrite Hs in Hnone. discriminate.
    + rewrite Hs in Hnone. discriminate.
Qed.

(** *** The claims at concrete inputs *)

Lemma find_path_relative_start_witness :
  dirname "foo" = ""
  /\ find_path "x" (Some "foo") (boot foo_fs) =
       (inl OSError, after (boot foo_fs) [Listdir "foo"; Listdir ""]).
Proof.
  apply (proj1 (find_path_relative_start "x" (Some "foo") (boot foo_fs))).
  - reflexivity.
  - reflexivity.
Defined.

End PathFinderProps.

(** * Further properties of the indexed value accessor *)

Module AccessorMore.
Import Py Eff Accessor AccessorProps.

Lemma getitem_unsubscriptable (obj : value) (k : key) :
  as_sequence obj = None -> (forall m, obj <> VDict m) ->
  getitem obj k = inl TypeError.
Proof.
  destruct obj; simpl; intros Hs Hd; try discriminate; try reflexivity.
  exfalso. eapply Hd. reflexivity.
Qed.

Lemma list_ascii_lookup (s : string) (n : nat) :
  list_ascii_of_string s !! n = String.get n s.
Proof.
  revert n. induction s as [|a s IH]; intros [|n]; simpl; auto.
Qed.

(** X1.  An object that is neither a sequence nor a mapping cannot be
    subscripted: the call raises [TypeError] after the one subscript
    [obj[index]], and does not look for ["result"]. *)
Theorem unsubscriptable_raises_TypeError (obj : value) (index : Z)
    (log : list access) :
  as_sequence obj = None -> (forall m, obj <> VDict m) ->
  get_value_at_index obj index log =
    (inl TypeError, log ++ [Subscript obj (KInt index)]).
Proof.
  intros Hs Hd. apply get_value_at_index_direct_other; [|discriminate].
  apply getitem_unsubscriptable; assumption.
Qed.

(** X2.  When the mapping lacks the index and its ["result"] is a sequence
    that the index is out of range for, the [IndexError] of the nested
    lookup reaches the caller. *)
Theorem fallback_out_of_range_raises (m : gmap key value) (i : Z) (r : value)
    (items : list value) (log : list access) :
  m !! KInt i = None ->
  m !! KStr "result" = Some r ->
  as_sequence r = Some items ->
  i < - Z.of_nat (length items) \/ Z.of_nat (length items) <= i ->
  get_value_at_index (VDict m) i log =
    (inl IndexError, log ++ [Subscript (VDict m) (KInt i);
                             Subscript (VDict m) (KStr "result");
                             Subscript r (KInt i)]).
Proof.
  intros Hi Hres Hseq Hout.
  rewrite get_value_at_index_fallback by (simpl; rewrite Hi; reflexivity).
  simpl. rewrite Hres, (getitem_sequence _ _ _ Hseq), (seq_index_out_of_range _ _ Hout).
  reflexivity.
Qed.

(** X3.  The fallback goes one level down and no further.  When the
    mapping lacks the index and its ["result"] is itself a mapping [inner],
    the call returns [inner[index]] if [inner] holds the index and raises
    [KeyError] if it does not, whether or not [inner] has a ["result"] of
    its own; [inner["result"]] is never evaluated. *)
Theorem fallback_is_one_level (m inner : gmap key value) (i : Z)
    (log : list access) :
  m !! KInt i = None ->
  m !! KStr "result" = Some (VDict inner) ->
  get_value_at_index (VDict m) i log =
    (match inner !! KInt i with
     | Some v => inr v
     | None => inl KeyError
     end,
     log ++ [Subscript (VDict m) (KInt i);
             Subscript (VDict m) (KStr "result");
             Subscript (VDict inner) (KInt i)]).
Proof.
  intros Hi Hres.
  rewrite get_value_at_index_fallback by (simpl; rewrite Hi; reflexivity).
  simpl. rewrite Hres. reflexivity.
Qed.

(** X4.  When the mapping lacks the index and its ["result"] is neither a
    sequence nor a mapping, the [TypeError] of the nested lookup reaches the
    caller. *)
Theorem fallback_unsubscriptable_raises (m : gmap key value) (i : Z) (r : value)
    (log : list access) :
  m !! KInt i = None ->
  m !! KStr "result" = Some r ->
  as_sequence r = None -> (forall inner, r <> VDict inner) ->
  get_value_at_index (VDict m) i log =
    (inl TypeError, log ++ [Subscript (VDict m) (KInt i);
                            Subscript (VDict m) (KStr "result");
                            Subscript r (KInt i)]).
Proof.
  intros Hi Hres Hs Hd.
  rewrite get_value_at_index_fallback by (simpl; rewrite Hi; reflexivity).
  simpl. rewrite Hres, (getitem_unsubscriptable _ _ Hs Hd). reflexivity.
Qed.

(** X5.  A string of ASCII characters is a sequence of its characters:
    for [0 <= index < len(s)] the call returns the one-character string at
    that position.  (A character of the model is one byte, which is one
    character of a Python [str] exactly when the text is ASCII.) *)
Theorem string_element_is_returned (s : string) (index : Z) (c : ascii)
    (log : list access) :
  ascii_only s = true ->
  0 <= index ->
  String.get (Z.to_nat index) s = Some c ->
  get_value_at_index (VStr s) index log =
    (inr (VStr (String c EmptyString)), log ++ [Subscript (VStr s) (KInt index)]).
Proof.
  intros _ H0 Hc. apply get_value_at_index_direct_ok.
  rewrite (getitem_sequence (VStr s) _ index eq_refl).
  apply seq_index_front; [exact H0|].
  rewrite list_lookup_fmap, list_ascii_lookup, Hc. reflexivity.
Qed.

(** X6.  On a sequence of length [n], a negative index [-n <= index < 0]
    and the index [index + n] return the same element. *)
Theorem negative_index_same_as_shifted (obj : value) (items : list value)
    (index : Z) (log log' : list access) :
  as_sequence obj = Some items ->
  - Z.of_nat (length items) <= index < 0 ->
  exists v,
    get_value_at_index obj index log =
      (inr v, log ++ [Subscript obj (KInt index)])
    /\ get_value_at_index obj (index + Z.of_nat (length items)) log' =
         (inr v, log' ++ [Subscript obj (KInt (index + Z.of_nat (length items)))]).
Proof.
  intros Hs Hr.
  destruct (seq_index_back items index) as (v & Hv & Hget); [lia|lia|].
  exists v. split.
  - apply get_value_at_index_direct_ok. rewrite (getitem_sequence _ _ _ Hs). exact Hget.
  - apply get_value_at_index_direct_ok. rewrite (getitem_sequence _ _ _ Hs).
    apply seq_index_front; [lia|]. rewrite Z.add_comm. exact Hv.
Qed.

(** *** The properties at concrete inputs *)

Lemma unsubscriptable_raises_TypeError_witness :
  get_value_at_index VNone 0 [] = (inl TypeError, [] ++ [Subscript VNone (KInt 0)]).
Proof.
  apply (unsubscriptable_raises_TypeError VNone 0 []).
  - reflexivity.
  - discriminate.
Defined.

Lemma fallback_out_of_range_raises_witness :
  get_value_at_index (VDict {[ KStr "result" := VTuple [VInt 4] ]}) 5 [] =
    (inl IndexError,
     [] ++ [Subscript (VDict {[ KStr "result" := VTuple [VInt 4] ]}) (KInt 5);
            Subscript (VDict {[ KStr "result" := VTuple [VInt 4] ]}) (KStr "result");
            Subscript (VTuple [VInt 4]) (KInt 5)]).
Proof.
  apply (fallback_out_of_range_raises
           {[ KStr "result" := VTuple [VInt 4] ]} 5 (VTuple [VInt 4]) [VInt 4] []).
  - reflexivity.
  - reflexivity.
  - reflexivity.
  - right. simpl. lia.
Defined.

Lemma fallback_is_one_level_witness :
  get_value_at_index
    (VDict {[ KStr "result" := VDict {[ KStr "result" := VList [VInt 9] ]} ]}) 0 [] =
    (inl KeyError,
     [Subscript (VDict {[ KStr "result" := VDict {[ KStr "result" := VList [VInt 9] ]} ]}) (KInt 0);
      Subscript (VDict {[ KStr "result" := VDict {[ KStr "result" := VList [VInt 9] ]} ]}) (KStr "result");
      Subscript (VDict {[ KStr "result" := VList [VInt 9] ]}) (KInt 0)]).
Proof.
  exact (fallback_is_one_level
           {[ KStr "result" := VDict {[ KStr "result" := VList [VInt 9] ]} ]}
           {[ KStr "result" := VList [VInt 9] ]} 0 [] eq_refl eq_refl).
Defined.

Lemma fallback_unsubscriptable_raises_witness :
  get_value_at_index (VDict {[ KStr "result" := VNone ]}) 0 [] =
    (inl TypeError,
     [] ++ [Subscript (VDict {[ KStr "result" := VNone ]}) (KInt 0);
            Subscript (VDict {[ KStr "result" := VNone ]}) (KStr "result");
            Subscript VNone (KInt 0)]).
Proof.
  apply (fallback_unsubscriptable_raises {[ KStr "result" := VNone ]} 0 VNone []).
  - reflexivity.
  - reflexivity.
  - reflexivity.
  - discriminate.
Defined.

Lemma string_element_is_returned_witness :
  get_value_at_index (VStr "abc") 1 [] =
    (inr (VStr "b"), [] ++ [Subscript (VStr "abc") (KInt 1)]).
Proof.
  apply (string_element_is_returned "abc" 1 "b"%char []).
  - reflexivity.
  - lia.
  - reflexivity.
Defined.

Lemma negative_index_same_as_shifted_witness :
  exists v,
    get_value_at_index (VList [VInt 5; VInt 6; VInt 7]) (-1) [] =
      (inr v, [] ++ [Subscript (VList [VInt 5; VInt 6; VInt 7]) (KInt (-1))])
    /\ get_value_at_index (VList [VInt 5; VInt 6; VInt 7])
         (-1 + Z.of_nat (length [VInt 5; VInt 6; VInt 7])) [] =
         (inr v, [] ++ [Subscript (VList [VInt 5; VInt 6; VInt 7])
                          (KInt (-1 + Z.of_nat (length [VInt 5; VInt 6; VInt 7])))]).
Proof.
  apply (negative_index_same_as_shifted
           (VList [VInt 5; VInt 6; VInt 7]) [VInt 5; VInt 6; VInt 7] (-1) [] []).
  - reflexivity.
  - simpl. lia.
Defined.

End AccessorMore.

(** * Further facts about [dirname] and [join] *)

Module OsPathMore.
Import OsPath OsPathFacts OsPathProps.

Lemma rstrip_no_trailing (q : string) (c : ascii) :
  endswith q c = false -> rstrip q c = q.
Proof.
  induction q as [|a q IH]; [reflexivity|].
  destruct q as [|b q].
  - simpl. intros ->. reflexivity.
  - change (endswith (String a (String b q)) c) with (endswith (String b q) c).
    intros H. specialize (IH H).
    remember (String b q) as t eqn:Ht. simpl. rewrite IH.
    subst t. reflexivity.
Qed.

Lemma rstrip_empty (s : string) (c : ascii) :
  rstrip s c = "" -> s = str_mul c (String.length s).
Proof.
  induction s as [|a s IH]; [reflexivity|]. simpl.
  destruct (rstrip s c) eqn:E; [|discriminate].
  destruct (Ascii.eqb_spec a c) as [->|]; [|discriminate].
  intros _. f_equal. apply IH. reflexivity.
Qed.

Lemma rstrip_keeps_head (s : string) (c c' : ascii) :
  startswith s c' = true -> rstrip s c <> "" -> startswith (rstrip s c) c' = true.
Proof.
  destruct s as [|a s]; [discriminate|]. simpl. intros Ha.
  destruct (rstrip s c); [destruct (Ascii.eqb a c)|]; simpl; congruence.
Qed.

Lemma startswith_rfind (s : string) (c : ascii) :
  startswith s c = true -> 0 <= rfind s c.
Proof.
  destruct s as [|a s]; [discriminate|]. simpl. intros ->.
  destruct (Z.leb_spec 0 (rfind s c)); lia.
Qed.

Lemma startswith_app (a b : string) (c : ascii) :
  a <> "" -> startswith (a +:+ b) c = startswith a c.
Proof. destruct a; [congruence|reflexivity]. Qed.

(** The parent of [q/] is [q]: only the separator is dropped. *)
Lemma dirname_trailing_sep (q : string) :
  q <> "" -> endswith q sep = false -> dirname (q +:+ "/") = q.
Proof.
  intros Hq Hend. pose proof (rstrip_no_trailing _ _ Hend) as Hstrip.
  unfold dirname.
  assert (Hr : rfind (q +:+ "/") sep = Z.of_nat (String.length q)).
  { rewrite rfind_app. simpl. lia. }
  assert (Hhead : slice_to (q +:+ "/") (rfind (q +:+ "/") sep + 1) = q +:+ "/").
  { unfold slice_to. rewrite Hr, string_length_app. simpl String.length.
    destruct (Z.ltb_spec (Z.of_nat (String.length q) + 1) 0); [lia|].
    replace (Z.to_nat _) with (String.length q + 1)%nat by lia.
    apply substring_0_app. }
  rewrite Hhead.
  assert (Hrs : rstrip (q +:+ "/") sep = q)
    by (etransitivity; [exact (rstrip_app_sep q sep)|exact Hstrip]).
  destruct (String.eqb (q +:+ "/") "") eqn:E1.
  { apply String.eqb_eq in E1. destruct q; discriminate. }
  destruct (String.eqb (q +:+ "/") (str_mul sep (String.length (q +:+ "/")))) eqn:E2.
  { apply String.eqb_eq in E2. rewrite E2, rstrip_str_mul in Hrs. congruence. }
  simpl. exact Hrs.
Qed.

(** The parent of an absolute path is absolute. *)
Lemma dirname_absolute (p : string) :
  startswith p sep = true -> startswith (dirname p) sep = true.
Proof.
  intros Habs. pose proof (startswith_rfind _ _ Habs) as Hr.
  pose proof (rfind_bounds p sep) as Hb.
  assert (Hhead : startswith (slice_to p (rfind p sep + 1)) sep = true).
  { unfold slice_to. destruct (Z.ltb_spec (rfind p sep + 1) 0); [lia|].
    destruct p as [|a p]; [discriminate|].
    destruct (Z.to_nat _) eqn:En; [cbn [String.length] in *; lia|].
    exact Habs. }
  unfold dirname.
  destruct (negb (String.eqb _ "")) eqn:E1; simpl; [|exact Hhead].
  destruct (negb (String.eqb _ (str_mul _ _))) eqn:E2; simpl; [|exact Hhead].
  apply rstrip_keeps_head; [exact Hhead|].
  intros Hemp. apply rstrip_empty in Hemp.
  apply negb_true_iff, String.eqb_neq in E2. contradiction.
Qed.

Lemma join_absolute (d name : string) :
  startswith d sep = true -> startswith (join d name) sep = true.
Proof.
  intros Hd. unfold join. destruct (startswith name sep) eqn:Hn; [exact Hn|].
  assert (d <> "") by (intros ->; discriminate).
  destruct (_ || _); rewrite startswith_app; assumption.
Qed.

End OsPathMore.

(** * Further properties of the ancestor path finder *)

Module PathFinderMore.
Import Py Eff OsPath OsPathFacts OsPathProps OsPathMore PathFinder PathFinderProps Samples.

Lemma ancestors_absolute (p : string) :
  startswith p sep = true ->
  Forall (fun d => startswith d sep = true) (ancestors p).
Proof.
  induction p as [p E | p E IH] using path_ind; intros Habs.
  - rewrite (ancestors_root _ E). repeat constructor. exact Habs.
  - rewrite (ancestors_step _ E). constructor; [exact Habs|].
    apply IH, dirname_absolute, Habs.
Qed.

(** X7.  A path is only ever returned for a real match: when the call
    returns [p], some directory [d] of the chain above the start holds an
    entry called [name], every directory nearer to the start was listed and
    lacks one, [p] is [os.path.join(d, name)], and the call listed exactly
    those directories and then printed the match. *)
Theorem find_path_result_sound (name : string) (path : option string) (w w' : world)
    (p : string) :
  find_path name path w = (inr (Some p), w') ->
  exists nearer d farther,
    ancestors (path_or_cwd path w) = nearer ++ d :: farther
    /\ Forall (fun x => probe (fs w) name x = Some false) nearer
    /\ probe (fs w) name d = Some true
    /\ p = join d name
    /\ w' = after w ((Listdir <$> nearer)
                       ++ [Listdir d; Printed (found_message name p)]).
Proof.
  rewrite find_path_scan.
  destruct (scan_cases (fs w) name (ancestors (path_or_cwd path w)))
    as [[Hall Hs] | [(n & x & f & Hc & Hn & Hx & Hs) | (n & x & f & Hc & Hn & Hx & Hs)]];
    rewrite Hs; cbn [fst snd]; intros H; inversion H; subst.
  exists n, x, f. repeat (split; [assumption || reflexivity|]).
  rewrite fmap_app, <- app_assoc. reflexivity.
Qed.

(** X8.  A directory that cannot be listed ends the search with its
    [OSError]: when every directory nearer to the start lacks the name and
    [d] cannot be listed, the call raises after listing up to [d]; it prints
    nothing and lists nothing above [d]. *)
Theorem find_path_listing_failure_propagates (name : string) (path : option string)
    (w : world) (nearer : list string) (d : string) (farther : list string) :
  ancestors (path_or_cwd path w) = nearer ++ d :: farther ->
  Forall (fun x => probe (fs w) name x = Some false) nearer ->
  probe (fs w) name d = None ->
  find_path name path w = (inl OSError, after w (Listdir <$> (nearer ++ [d]))).
Proof.
  intros Hc Hn Hd.
  rewrite find_path_scan, Hc, (scan_first_failure _ _ _ _ _ Hn Hd). reflexivity.
Qed.

(** X10.  The call prints exactly when it returns a path, and then what it
    prints is the line [name found: path]: a line is among the events of
    the call if and only if the call returned a path and the line is that
    message. *)
Theorem find_path_prints_iff_found (name : string) (path : option string) (w : world) :
  exists r evs,
    find_path name path w = (r, after w evs)
    /\ forall line,
         Printed line ∈ evs <->
         exists p, r = inr (Some p) /\ line = found_message name p.
Proof.
  rewrite find_path_scan.
  assert (Hno : forall (ds : list string) line, Printed line ∉ Listdir <$> ds).
  { intros ds line Hin. apply list_elem_of_fmap in Hin as (x & Hx & _). discriminate. }
  destruct (scan_cases (fs w) name (ancestors (path_or_cwd path w)))
    as [[Hall Hs] | [(n & x & f & Hc & Hn & Hx & Hs) | (n & x & f & Hc & Hn & Hx & Hs)]];
    rewrite Hs; cbn [fst snd]; eexists _, _; (split; [reflexivity|]); intros line; split.
  - intros Hin. exfalso. eapply Hno, Hin.
  - intros (p & Hp & _). discriminate.
  - intros Hin. exfalso. eapply Hno, Hin.
  - intros (p & Hp & _). discriminate.
  - intros Hin. apply elem_of_app in Hin as [Hin|Hin]; [exfalso; eapply Hno, Hin|].
    apply list_elem_of_singleton in Hin. inversion Hin; subst. eauto.
  - intros (p & Hp & ->). inversion Hp; subst.
    apply elem_of_app. right. apply list_elem_of_singleton. reflexivity.
Qed.

(** X11.  The absent result is returned exactly when every directory of
    the chain above the start, up to the one that is its own parent, can be
    listed and holds no entry called [name]. *)
Theorem find_path_none_iff (name : string) (path : option string) (w : world) :
  fst (find_path name path w) = inr None <->
  Forall (fun d => probe (fs w) name d = Some false) (ancestors (path_or_cwd path w)).
Proof.
  rewrite find_path_scan. cbn [fst]. split.
  - intros Hnone.
    destruct (scan_cases (fs w) name (ancestors (path_or_cwd path w)))
      as [[Hall Hs] | [(n & x & f & Hc & Hn & Hx & Hs) | (n & x & f & Hc & Hn & Hx & Hs)]];
      [exact Hall| |]; rewrite Hs in Hnone; discriminate.
  - intros Hall. rewrite (scan_none _ _ _ Hall). reflexivity.
Qed.

(** X12.  A start written with a trailing separator costs one listing
    more: when [q/] lacks the name, the search goes on from [q], the same
    directory without the separator, not from the parent of [q]. *)
Theorem find_path_trailing_separator (name q : string) (w : world) :
  q <> "" -> endswith q sep = false ->
  probe (fs w) name (q +:+ "/") = Some false ->
  find_path name (Some (q +:+ "/")) w =
    find_path name (Some q) (after w [Listdir (q +:+ "/")]).
Proof.
  intros Hq Hend Hprobe.
  pose proof (dirname_trailing_sep _ Hq Hend) as Hparent.
  rewrite find_path_unfold. cbn [path_or_cwd]. cbv zeta. rewrite Hprobe, Hparent.
  destruct (decide (q = q +:+ "/")) as [E|_]; [|reflexivity].
  apply (f_equal String.length) in E. rewrite string_length_app in E.
  simpl in E. lia.
Qed.

(** X13.  From an absolute start the call returns absolute paths only. *)
Theorem find_path_absolute_result (name : string) (path : option string)
    (w w' : world) (p : string) :
  startswith (path_or_cwd path w) sep = true ->
  find_path name path w = (inr (Some p), w') ->
  startswith p sep = true.
Proof.
  intros Habs. rewrite find_path_scan.
  destruct (scan_cases (fs w) name (ancestors (path_or_cwd path w)))
    as [[Hall Hs] | [(n & x & f & Hc & Hn & Hx & Hs) | (n & x & f & Hc & Hn & Hx & Hs)]];
    rewrite Hs; cbn [fst snd]; intros H; inversion H; subst.
  apply join_absolute.
  pose proof (ancestors_absolute _ Habs) as Hall. rewrite Hc in Hall.
  apply Forall_app in Hall as [_ Hall]. inversion Hall; assumption.
Qed.

(** X14.  For a name that does not begin with a separator, the path
    returned is a directory of the chain above the start, one separator
    unless the directory already ends with one, and the name. *)
Theorem find_path_result_shape (name : string) (path : option string)
    (w w' : world) (p : string) :
  startswith name sep = false ->
  find_path name path w = (inr (Some p), w') ->
  exists d,
    d ∈ ancestors (path_or_cwd path w)
    /\ p = if endswith d sep then d +:+ name else d +:+ "/" +:+ name.
Proof.
  intros Hname. rewrite find_path_scan.
  destruct (scan_cases (fs w) name (ancestors (path_or_cwd path w)))
    as [[Hall Hs] | [(n & x & f & Hc & Hn & Hx & Hs) | (n & x & f & Hc & Hn & Hx & Hs)]];
    rewrite Hs; cbn [fst snd]; intros H; inversion H; subst.
  exists x. split.
  - rewrite Hc. apply elem_of_app. right. apply elem_of_cons. left. reflexivity.
  - apply join_plain; [exact Hname|].
    intros ->. unfold probe in Hx. simpl in Hx. discriminate.
Qed.

(** *** The properties at concrete inputs *)

Lemma find_path_result_sound_witness :
  exists nearer d farther,
    ancestors (path_or_cwd None (boot srv_fs)) = nearer ++ d :: farther
    /\ Forall (fun x => probe (fs (boot srv_fs)) "ComfyUI" x = Some false) nearer
    /\ probe (fs (boot srv_fs)) "ComfyUI" d = Some true
    /\ "/srv/ComfyUI" = join d "ComfyUI"
    /\ after (boot srv_fs)
         [Listdir "/srv/app/run"; Listdir "/srv/app"; Listdir "/srv";
          Printed "ComfyUI found: /srv/ComfyUI"] =
       after (boot srv_fs)
         ((Listdir <$> nearer)
            ++ [Listdir d; Printed (found_message "ComfyUI" "/srv/ComfyUI")]).
Proof.
  apply (find_path_result_sound "ComfyUI" None (boot srv_fs)).
  vm_compute. reflexivity.
Defined.

Lemma find_path_listing_failure_propagates_witness :
  find_path "ComfyUI" None (boot locked_fs) =
    (inl OSError, after (boot locked_fs) (Listdir <$> (["/home/user"] ++ ["/home"]))).
Proof.
  apply (find_path_listing_failure_propagates "ComfyUI" None (boot locked_fs)
           ["/home/user"] "/home" ["/"]).
  - vm_compute. reflexivity.
  - repeat constructor.
  - reflexivity.
Defined.

Lemma find_path_trailing_separator_witness :
  find_path "ComfyUI" (Some ("/srv/app" +:+ "/")) (boot slash_fs) =
    find_path "ComfyUI" (Some "/srv/app")
      (after (boot slash_fs) [Listdir ("/srv/app" +:+ "/")]).
Proof.
  apply (find_path_trailing_separator "ComfyUI" "/srv/app" (boot slash_fs)).
  - discriminate.
  - reflexivity.
  - reflexivity.
Defined.

Lemma find_path_absolute_result_witness :
  startswith "/srv/ComfyUI" sep = true.
Proof.
  apply (find_path_absolute_result "ComfyUI" None (boot srv_fs)
           (after (boot srv_fs)
              [Listdir "/srv/app/run"; Listdir "/srv/app"; Listdir "/srv";
               Printed "ComfyUI found: /srv/ComfyUI"])).
  - reflexivity.
  - vm_compute. reflexivity.
Defined.

Lemma find_path_result_shape_witness :
  exists d,
    d ∈ ancestors (path_or_cwd None (boot srv_fs))
    /\ "/srv/ComfyUI" = if endswith d sep then d +:+ "ComfyUI" else d +:+ "/" +:+ "ComfyUI".
Proof.
  apply (find_path_result_shape "ComfyUI" None (boot srv_fs)
           (after (boot srv_fs)
              [Listdir "/srv/app/run"; Listdir "/srv/app"; Listdir "/srv";
               Printed "ComfyUI found: /srv/ComfyUI"])).
  - reflexivity.
  - vm_compute. reflexivity.
Defined.

End PathFinderMore.

(** * Properties of the start-up helpers *)

Module StartupProps.
Import Py Eff OsPath PathFinder PathFinderProps Startup Samples.

(** *** [add_comfyui_directory_to_sys_path] in terms of the scan *)

Lemma add_comfyui_scan (h : host) :
  add_comfyui_directory_to_sys_path h =
    let w := machine h in
    let found := scan (fs w) "ComfyUI" (ancestors (cwd (fs w))) in
    match fst found with
    | inl e => (inl (Builtin e), host_after h (snd found))
    | inr None => (inr tt, host_after h (snd found))
    | inr (Some p) =>
        if isdir h p
        then (inr tt,
              {| machine := after w (snd found ++ [Printed (added_message p)]);
                 isdir := isdir h;
                 sys_path := sys_path h ++ [p] |})
        else (inr tt, host_after h (snd found))
    end.
Proof.
  unfold add_comfyui_directory_to_sys_path, bind, on_machine.
  rewrite find_path_scan. cbn [path_or_cwd]. cbv zeta.
  destruct (scan _ _ _) as [[e|[p|]] evs]; cbn; try reflexivity.
  unfold os_path_isdir, sys_path_append, ret, print, emit, after, host_after. cbn.
  destruct (isdir h p); cbn; [|reflexivity].
  rewrite app_assoc. reflexivity.
Qed.

(** X15.  When the nearest directory above the working directory that
    holds an entry [ComfyUI] is [d], and [d/ComfyUI] is a directory, the
    call appends that path at the end of [sys.path], prints the match and
    then the line that the path was added, and returns normally. *)
Theorem comfyui_directory_is_appended (h : host) (nearer : list string)
    (d : string) (farther : list string) :
  ancestors (cwd (fs (machine h))) = nearer ++ d :: farther ->
  Forall (fun x => probe (fs (machine h)) "ComfyUI" x = Some false) nearer ->
  probe (fs (machine h)) "ComfyUI" d = Some true ->
  isdir h (join d "ComfyUI") = true ->
  add_comfyui_directory_to_sys_path h =
    (inr tt,
     {| machine :=
          after (machine h)
            ((Listdir <$> nearer)
               ++ [Listdir d;
                   Printed (found_message "ComfyUI" (join d "ComfyUI"));
                   Printed (added_message (join d "ComfyUI"))]);
        isdir := isdir h;
        sys_path := sys_path h ++ [join d "ComfyUI"] |}).
Proof.
  intros Hc Hn Hd Hdir.
  rewrite add_comfyui_scan. cbv zeta.
  rewrite Hc, (scan_first_match _ _ _ _ _ Hn Hd). cbn [fst snd]. rewrite Hdir.
  rewrite <- app_assoc. reflexivity.
Qed.

(** X16.  An entry [ComfyUI] that is not a directory is found and
    reported by the search, but not put on [sys.path]: the module search
    path stays as it was and no line about adding is printed. *)
Theorem comfyui_entry_not_a_directory_is_skipped (h : host) (nearer : list string)
    (d : string) (farther : list string) :
  ancestors (cwd (fs (machine h))) = nearer ++ d :: farther ->
  Forall (fun x => probe (fs (machine h)) "ComfyUI" x = Some false) nearer ->
  probe (fs (machine h)) "ComfyUI" d = Some true ->
  isdir h (join d "ComfyUI") = false ->
  add_comfyui_directory_to_sys_path h =
    (inr tt,
     host_after h
       ((Listdir <$> nearer)
          ++ [Listdir d; Printed (found_message "ComfyUI" (join d "ComfyUI"))])).
Proof.
  intros Hc Hn Hd Hdir.
  rewrite add_comfyui_scan. cbv zeta.
  rewrite Hc, (scan_first_match _ _ _ _ _ Hn Hd). cbn [fst snd]. rewrite Hdir.
  reflexivity.
Qed.

(** X17.  Whatever happens, the call leaves the filesystem alone and
    changes [sys.path] at most by appending one path at its end; a path it
    appends is a directory, and is [d/ComfyUI] for a directory [d] above
    the working directory that holds an entry [ComfyUI]. *)
Theorem sys_path_only_grows (h : host) :
  exists r h',
    add_comfyui_directory_to_sys_path h = (r, h')
    /\ fs (machine h') = fs (machine h)
    /\ isdir h' = isdir h
    /\ (sys_path h' = sys_path h
        \/ exists d,
             sys_path h' = sys_path h ++ [join d "ComfyUI"]
             /\ r = inr tt
             /\ isdir h (join d "ComfyUI") = true
             /\ d ∈ ancestors (cwd (fs (machine h)))
             /\ probe (fs (machine h)) "ComfyUI" d = Some true).
Proof.
  rewrite add_comfyui_scan. cbv zeta.
  destruct (scan_cases (fs (machine h)) "ComfyUI" (ancestors (cwd (fs (machine h)))))
    as [[Hall Hs] | [(n & x & f & Hc & Hn & Hx & Hs) | (n & x & f & Hc & Hn & Hx & Hs)]];
    rewrite Hs; cbn [fst snd].
  - eexists _, _. split; [reflexivity|]. cbn. auto.
  - eexists _, _. split; [reflexivity|]. cbn. auto.
  - destruct (isdir h (join x "ComfyUI")) eqn:Hdir.
    + eexists _, _. split; [reflexivity|]. cbn. split; [reflexivity|].
      split; [reflexivity|]. right. exists x.
      repeat (split; [reflexivity || assumption|]).
      split; [|exact Hx].
      rewrite Hc. apply elem_of_app. right. apply elem_of_cons. left. reflexivity.
    + eexists _, _. split; [reflexivity|]. cbn. auto.
Qed.

(** X18.  The call does not look at what [sys.path] already holds: made
    twice in a row where [d/ComfyUI] is found and is a directory, it leaves
    that path on [sys.path] twice. *)
Theorem comfyui_directory_appended_twice (h : host) (nearer : list string)
    (d : string) (farther : list string) :
  ancestors (cwd (fs (machine h))) = nearer ++ d :: farther ->
  Forall (fun x => probe (fs (machine h)) "ComfyUI" x = Some false) nearer ->
  probe (fs (machine h)) "ComfyUI" d = Some true ->
  isdir h (join d "ComfyUI") = true ->
  exists r h',
    (_ <~ add_comfyui_directory_to_sys_path ;; add_comfyui_directory_to_sys_path) h
      = (r, h')
    /\ r = inr tt
    /\ sys_path h' = sys_path h ++ [join d "ComfyUI"; join d "ComfyUI"].
Proof.
  intros Hc Hn Hd Hdir. unfold bind.
  rewrite add_comfyui_scan. cbv zeta.
  rewrite Hc, (scan_first_match _ _ _ _ _ Hn Hd). cbn [fst snd]. rewrite Hdir.
  rewrite add_comfyui_scan. cbn [machine fs after isdir sys_path]. cbv zeta.
  rewrite Hc, (scan_first_match _ _ _ _ _ Hn Hd). cbn [fst snd]. rewrite Hdir.
  eexists _, _. split; [reflexivity|]. split; [reflexivity|].
  cbn. rewrite <- app_assoc. reflexivity.
Qed.

(** X19.  When no directory above the working directory holds an entry
    [ComfyUI], the call returns normally and says nothing: it lists the
    chain, prints no line, and leaves [sys.path] as it was. *)
Theorem comfyui_not_found_is_silent (h : host) :
  Forall (fun x => probe (fs (machine h)) "ComfyUI" x = Some false)
         (ancestors (cwd (fs (machine h)))) ->
  add_comfyui_directory_to_sys_path h =
    (inr tt, host_after h (Listdir <$> ancestors (cwd (fs (machine h))))).
Proof.
  intros Hall. rewrite add_comfyui_scan. cbv zeta.
  rewrite (scan_none _ _ _ Hall). reflexivity.
Qed.

(** X20.  A directory that cannot be listed during the search makes the
    call raise the [OSError]; [sys.path] is left as it was. *)
Theorem comfyui_search_failure_propagates (h : host) (nearer : list string)
    (d : string) (farther : list string) :
  ancestors (cwd (fs (machine h))) = nearer ++ d :: farther ->
  Forall (fun x => probe (fs (machine h)) "ComfyUI" x = Some false) nearer ->
  probe (fs (machine h)) "ComfyUI" d = None ->
  add_comfyui_directory_to_sys_path h =
    (inl (Builtin OSError), host_after h (Listdir <$> (nearer ++ [d]))).
Proof.
  intros Hc Hn Hd. rewrite add_comfyui_scan. cbv zeta.
  rewrite Hc, (scan_first_failure _ _ _ _ _ Hn Hd). reflexivity.
Qed.

(** *** [add_extra_model_paths] *)

Section Imports.
Context {loader : Type}.
Variable import_from : string -> string -> run loader.
Variable call : loader -> string -> run unit.

(** What follows the import, in terms of the scan. *)
Lemma config_search_scan (load : loader) (h : host) :
  (extra_model_paths <~ on_machine (find_path "extra_model_paths.yaml" None) ;;
   match extra_model_paths with
   | Some p => call load p
   | None => on_machine (print not_found_message)
   end) h =
    let w := machine h in
    let found := scan (fs w) "extra_model_paths.yaml" (ancestors (cwd (fs w))) in
    match fst found with
    | inl e => (inl (Builtin e), host_after h (snd found))
    | inr None => (inr tt, host_after h (snd found ++ [Printed not_found_message]))
    | inr (Some p) => call load p (host_after h (snd found))
    end.
Proof.
  unfold bind, on_machine. rewrite find_path_scan. cbn [path_or_cwd]. cbv zeta.
  destruct (scan _ _ _) as [[e|[p|]] evs]; cbn; try reflexivity.
  unfold host_after, after, emit. cbn. rewrite app_assoc. reflexivity.
Qed.

Lemma add_extra_model_paths_imported (h h1 : host) (load : loader) :
  except_ImportError
    (import_from "main" "load_extra_path_config")
    (_ <~ on_machine (print import_failed_message) ;;
     import_from "utils.extra_config" "load_extra_path_config") h = (inr load, h1) ->
  add_extra_model_paths import_from call h =
    (extra_model_paths <~ on_machine (find_path "extra_model_paths.yaml" None) ;;
     match extra_model_paths with
     | Some p => call load p
     | None => on_machine (print not_found_message)
     end) h1.
Proof.
  intros H. unfold add_extra_model_paths.
  unfold bind at 1. rewrite H. reflexivity.
Qed.

Lemma import_direct (h h1 : host) (load : loader) :
  import_from "main" "load_extra_path_config" h = (inr load, h1) ->
  except_ImportError
    (import_from "main" "load_extra_path_config")
    (_ <~ on_machine (print import_failed_message) ;;
     import_from "utils.extra_config" "load_extra_path_config") h = (inr load, h1).
Proof. intros H. unfold except_ImportError. rewrite H. reflexivity. Qed.

Lemma import_fallback (h h1 : host) :
  import_from "main" "load_extra_path_config" h = (inl ImportError, h1) ->
  except_ImportError
    (import_from "main" "load_extra_path_config")
    (_ <~ on_machine (print import_failed_message) ;;
     import_from "utils.extra_config" "load_extra_path_config") h =
    import_from "utils.extra_config" "load_extra_path_config"
      (host_after h1 [Printed import_failed_message]).
Proof. intros H. unfold except_ImportError. rewrite H. reflexivity. Qed.

(** X21.  When the loader is imported from [main] and no directory above
    the working directory holds [extra_model_paths.yaml], the call lists
    the chain, prints that the configuration file could not be found, and
    returns normally; the loader is not called. *)
Theorem config_not_found_is_reported (h h1 : host) (load : loader) :
  import_from "main" "load_extra_path_config" h = (inr load, h1) ->
  Forall (fun x => probe (fs (machine h1)) "extra_model_paths.yaml" x = Some false)
         (ancestors (cwd (fs (machine h1)))) ->
  add_extra_model_paths import_from call h =
    (inr tt,
     host_after h1
       ((Listdir <$> ancestors (cwd (fs (machine h1))))
          ++ [Printed not_found_message])).
Proof.
  intros Himp Hall.
  rewrite (add_extra_model_paths_imported _ _ _ (import_direct _ _ _ Himp)).
  rewrite config_search_scan. cbv zeta. rewrite (scan_none _ _ _ Hall). reflexivity.
Qed.

(** X22.  When the loader is imported from [main] and the nearest directory
    above the working directory that holds [extra_model_paths.yaml] is
    [d], the call ends by calling the loader on [d/extra_model_paths.yaml],
    after the search has listed up to [d] and printed the match; what the
    loader returns or raises is what the call returns or raises. *)
Theorem config_found_is_loaded (h h1 : host) (load : loader)
    (nearer : list string) (d : string) (farther : list string) :
  import_from "main" "load_extra_path_config" h = (inr load, h1) ->
  ancestors (cwd (fs (machine h1))) = nearer ++ d :: farther ->
  Forall (fun x => probe (fs (machine h1)) "extra_model_paths.yaml" x = Some false)
         nearer ->
  probe (fs (machine h1)) "extra_model_paths.yaml" d = Some true ->
  add_extra_model_paths import_from call h =
    call load (join d "extra_model_paths.yaml")
      (host_after h1
         ((Listdir <$> nearer)
            ++ [Listdir d;
                Printed (found_message "extra_model_paths.yaml"
                           (join d "extra_model_paths.yaml"))])).
Proof.
  intros Himp Hc Hn Hd.
  rewrite (add_extra_model_paths_imported _ _ _ (import_direct _ _ _ Himp)).
  rewrite config_search_scan. cbv zeta.
  rewrite Hc, (scan_first_match _ _ _ _ _ Hn Hd). reflexivity.
Qed.

(** X23.  When importing the loader from [main] raises [ImportError], the
    call prints that it could not import it and imports it from
    [utils.extra_config]; the loader called on the configuration file found
    is the one that second import yields. *)
Theorem fallback_loader_is_used (h h1 h2 : host) (load : loader)
    (nearer : list string) (d : string) (farther : list string) :
  import_from "main" "load_extra_path_config" h = (inl ImportError, h1) ->
  import_from "utils.extra_config" "load_extra_path_config"
    (host_after h1 [Printed import_failed_message]) = (inr load, h2) ->
  ancestors (cwd (fs (machine h2))) = nearer ++ d :: farther ->
  Forall (fun x => probe (fs (machine h2)) "extra_model_paths.yaml" x = Some false)
         nearer ->
  probe (fs (machine h2)) "extra_model_paths.yaml" d = Some true ->
  add_extra_model_paths import_from call h =
    call load (join d "extra_model_paths.yaml")
      (host_after h2
         ((Listdir <$> nearer)
            ++ [Listdir d;
                Printed (found_message "extra_model_paths.yaml"
                           (join d "extra_model_paths.yaml"))])).
Proof.
  intros Hmain Hutils Hc Hn Hd.
  rewrite (add_extra_model_paths_imported h h2 load)
    by (rewrite (import_fallback _ _ Hmain); exact Hutils).
  rewrite config_search_scan. cbv zeta.
  rewrite Hc, (scan_first_match _ _ _ _ _ Hn Hd). reflexivity.
Qed.

(** X24.  When neither import yields the loader, the call raises what the
    second import raised, right after it: no directory is listed and the
    configuration file is not looked for. *)
Theorem missing_loader_stops_before_search (h h1 h2 : host) (e : error) :
  import_from "main" "load_extra_path_config" h = (inl ImportError, h1) ->
  import_from "utils.extra_config" "load_extra_path_config"
    (host_after h1 [Printed import_failed_message]) = (inl e, h2) ->
  add_extra_model_paths import_from call h = (inl e, h2).
Proof.
  intros Hmain Hutils. unfold add_extra_model_paths.
  unfold bind at 1. rewrite (import_fallback _ _ Hmain), Hutils. reflexivity.
Qed.

End Imports.

(** *** The properties at concrete inputs *)

Lemma comfyui_directory_is_appended_witness :
  add_comfyui_directory_to_sys_path (fresh_host srv_fs comfy_dirs) =
    (inr tt,
     {| machine :=
          after (machine (fresh_host srv_fs comfy_dirs))
            ((Listdir <$> ["/srv/app/run"; "/srv/app"])
               ++ [Listdir "/srv";
                   Printed (found_message "ComfyUI" (join "/srv" "ComfyUI"));
                   Printed (added_message (join "/srv" "ComfyUI"))]);
        isdir := isdir (fresh_host srv_fs comfy_dirs);
        sys_path := sys_path (fresh_host srv_fs comfy_dirs) ++ [join "/srv" "ComfyUI"] |}).
Proof.
  apply (comfyui_directory_is_appended (fresh_host srv_fs comfy_dirs)
           ["/srv/app/run"; "/srv/app"] "/srv" ["/"]).
  - vm_compute. reflexivity.
  - repeat constructor.
  - reflexivity.
  - reflexivity.
Defined.

Lemma comfyui_entry_not_a_directory_is_skipped_witness :
  add_comfyui_directory_to_sys_path (fresh_host srv_fs (fun _ => false)) =
    (inr tt,
     host_after (fresh_host srv_fs (fun _ => false))
       ((Listdir <$> ["/srv/app/run"; "/srv/app"])
          ++ [Listdir "/srv"; Printed (found_message "ComfyUI" (join "/srv" "ComfyUI"))])).
Proof.
  apply (comfyui_entry_not_a_directory_is_skipped (fresh_host srv_fs (fun _ => false))
           ["/srv/app/run"; "/srv/app"] "/srv" ["/"]).
  - vm_compute. reflexivity.
  - repeat constructor.
  - reflexivity.
  - reflexivity.
Defined.

Lemma comfyui_directory_appended_twice_witness :
  exists r h',
    (_ <~ add_comfyui_directory_to_sys_path ;; add_comfyui_directory_to_sys_path)
      (fresh_host srv_fs comfy_dirs) = (r, h')
    /\ r = inr tt
    /\ sys_path h' =
         sys_path (fresh_host srv_fs comfy_dirs)
           ++ [join "/srv" "ComfyUI"; join "/srv" "ComfyUI"].
Proof.
  apply (comfyui_directory_appended_twice (fresh_host srv_fs comfy_dirs)
           ["/srv/app/run"; "/srv/app"] "/srv" ["/"]).
  - vm_compute. reflexivity.
  - repeat constructor.
  - reflexivity.
  - reflexivity.
Defined.

Lemma comfyui_not_found_is_silent_witness :
  add_comfyui_directory_to_sys_path (fresh_host foo_fs (fun _ => true)) =
    (inr tt,
     host_after (fresh_host foo_fs (fun _ => true))
       (Listdir <$> ancestors (cwd (fs (machine (fresh_host foo_fs (fun _ => true))))))).
Proof.
  apply (comfyui_not_found_is_silent (fresh_host foo_fs (fun _ => true))).
  vm_compute. repeat constructor.
Defined.

Lemma comfyui_search_failure_propagates_witness :
  add_comfyui_directory_to_sys_path (fresh_host locked_fs (fun _ => true)) =
    (inl (Builtin OSError),
     host_after (fresh_host locked_fs (fun _ => true))
       (Listdir <$> (["/home/user"] ++ ["/home"]))).
Proof.
  apply (comfyui_search_failure_propagates (fresh_host locked_fs (fun _ => true))
           ["/home/user"] "/home" ["/"]).
  - vm_compute. reflexivity.
  - repeat constructor.
  - reflexivity.
Defined.

Lemma config_not_found_is_reported_witness :
  add_extra_model_paths import_ok load_nothing (fresh_host srv_fs comfy_dirs) =
    (inr tt,
     host_after (fresh_host srv_fs comfy_dirs)
       ((Listdir <$> ancestors (cwd (fs (machine (fresh_host srv_fs comfy_dirs)))))
          ++ [Printed not_found_message])).
Proof.
  apply (config_not_found_is_reported import_ok load_nothing
           (fresh_host srv_fs comfy_dirs) (fresh_host srv_fs comfy_dirs) tt).
  - reflexivity.
  - vm_compute. repeat constructor.
Defined.

Lemma config_found_is_loaded_witness :
  add_extra_model_paths import_ok load_nothing (fresh_host config_fs comfy_dirs) =
    load_nothing tt (join "/srv" "extra_model_paths.yaml")
      (host_after (fresh_host config_fs comfy_dirs)
         ((Listdir <$> ["/srv/app/run"; "/srv/app"])
            ++ [Listdir "/srv";
                Printed (found_message "extra_model_paths.yaml"
                           (join "/srv" "extra_model_paths.yaml"))])).
Proof.
  apply (config_found_is_loaded import_ok load_nothing
           (fresh_host config_fs comfy_dirs) (fresh_host config_fs comfy_dirs) tt
           ["/srv/app/run"; "/srv/app"] "/srv" ["/"]).
  - reflexivity.
  - vm_compute. reflexivity.
  - repeat constructor.
  - reflexivity.
Defined.

Lemma fallback_loader_is_used_witness :
  add_extra_model_paths import_not_from_main load_nothing
    (fresh_host config_fs comfy_dirs) =
    load_nothing tt (join "/srv" "extra_model_paths.yaml")
      (host_after
         (host_after (fresh_host config_fs comfy_dirs) [Printed import_failed_message])
         ((Listdir <$> ["/srv/app/run"; "/srv/app"])
            ++ [Listdir "/srv";
                Printed (found_message "extra_model_paths.yaml"
                           (join "/srv" "extra_model_paths.yaml"))])).
Proof.
  apply (fallback_loader_is_used import_not_from_main load_nothing
           (fresh_host config_fs comfy_dirs) (fresh_host config_fs comfy_dirs)
           (host_after (fresh_host config_fs comfy_dirs) [Printed import_failed_message])
           tt ["/srv/app/run"; "/srv/app"] "/srv" ["/"]).
  - reflexivity.
  - reflexivity.
  - vm_compute. reflexivity.
  - repeat constructor.
  - reflexivity.
Defined.

Lemma missing_loader_stops_before_search_witness :
  add_extra_model_paths import_missing load_nothing (fresh_host config_fs comfy_dirs) =
    (inl ImportError,
     host_after (fresh_host config_fs comfy_dirs) [Printed import_failed_message]).
Proof.
  apply (missing_loader_stops_before_search import_missing load_nothing
           (fresh_host config_fs comfy_dirs) (fresh_host config_fs comfy_dirs)
           (host_after (fresh_host config_fs comfy_dirs) [Printed import_failed_message])
           ImportError).
  - reflexivity.
  - reflexivity.
Defined.

End StartupProps.

(** * The search on starts written with [..] *)

Module PathFinderDotDot.
Import Py OsPath PathFinder PathFinderProps Samples.

(** C3 at a failing input.  The start [/srv/app/run/..] is the directory
    [/srv/app].  Neither it nor the directory above it ([/srv]) holds an
    entry [models]; the directory two levels up ([/]) holds one.  The call
    does not return that entry.  Its second listing is of [/srv/app/run],
    the text [dirname] leaves of the start and a directory below the start,
    and it returns the path of the [models] it finds there. *)
Theorem find_path_dotdot_start_descends :
  probe dotdot_fs "models" "/srv/app/run/.." = Some false
  /\ probe dotdot_fs "models" "/srv/app/run/../.." = Some false
  /\ probe dotdot_fs "models" "/srv/app/run/../../.." = Some true
  /\ dirname "/srv/app/run/.." = "/srv/app/run"
  /\ find_path "models" (Some "/srv/app/run/..") (boot dotdot_fs) =
       (inr (Some "/srv/app/run/models"),
        after (boot dotdot_fs)
          [Listdir "/srv/app/run/.."; Listdir "/srv/app/run";
           Printed "models found: /srv/app/run/models"]).
Proof.
  repeat split; vm_compute; reflexivity.
Qed.

End PathFinderDotDot.

(** * The search under the recursion limit *)

Module RecursionProps.
Import Py Eff OsPath OsPathFacts OsPathProps PathFinder PathFinderProps Recursion.

Lemma after_nil (w : world) : after w [] = w.
Proof. destruct w. unfold after. simpl. rewrite app_nil_r. reflexivity. Qed.

Lemma after_after (w : world) (evs evs' : list event) :
  after (after w evs) evs' = after w (evs ++ evs').
Proof. unfold after. simpl. rewrite app_assoc. reflexivity. Qed.

Lemma find_path_in_frames_unfold (frames : nat) (name : string)
    (path : option string) (w : world) :
  find_path_in_frames (S frames) name path w =
    let p := path_or_cwd path w in
    match probe (fs w) name p with
    | None => (inl (Raised OSError), after w [Listdir p])
    | Some true =>
        (inr (Some (join p name)),
         after w [Listdir p; Printed (found_message name (join p name))])
    | Some false =>
        if decide (dirname p = p) then (inr None, after w [Listdir p])
        else find_path_in_frames frames name (Some (dirname p)) (after w [Listdir p])
    end.
Proof.
  cbn [find_path_in_frames]. unfold os_listdir, probe. cbv zeta.
  destruct (String.eqb (path_or_cwd path w) ""); [reflexivity|].
  destruct (listing (fs w) (path_or_cwd path w)) as [entries|]; [|reflexivity].
  destruct (contains entries name).
  - unfold print, after, emit. simpl. rewrite <- app_assoc. reflexivity.
  - destruct (decide _); reflexivity.
Qed.

(** The bounded search is a scan of the first [frames] directories of the
    chain of parents; it ends in [RecursionError] when none of them decides
    the search and the chain goes on. *)
Lemma find_path_in_frames_scan (frames : nat) (name : string)
    (path : option string) (w : world) :
  find_path_in_frames frames name path w =
    let chain := ancestors (path_or_cwd path w) in
    let found := scan (fs w) name (take frames chain) in
    match fst found with
    | inl e => (inl (Raised e), after w (snd found))
    | inr (Some p) => (inr (Some p), after w (snd found))
    | inr None =>
        if decide (length chain <= frames)%nat
        then (inr None, after w (snd found))
        else (inl RecursionError, after w (snd found))
    end.
Proof.
  revert path w. induction frames as [|frames IH]; intros path w; cbv zeta.
  - rewrite take_0. cbn.
    pose proof (ancestors_length (path_or_cwd path w)).
    destruct (decide _); [lia|]. rewrite after_nil. reflexivity.
  - rewrite find_path_in_frames_unfold. cbv zeta.
    set (p := path_or_cwd path w).
    destruct (decide (dirname p = p)) as [E|E].
    + rewrite (ancestors_root _ E). cbn [take length]. rewrite take_nil. cbn [scan].
      destruct (probe (fs w) name p) as [[|]|]; cbn; reflexivity.
    + rewrite (ancestors_step _ E). cbn [take scan length].
      destruct (probe (fs w) name p) as [[|]|]; cbn [fst snd]; try reflexivity.
      rewrite IH. cbn [path_or_cwd fs after]. cbv zeta.
      destruct (scan (fs w) name (take frames (ancestors (dirname p)))) as [[e|[q|]] evs];
        cbn [fst snd]; rewrite ?after_after; try reflexivity.
      destruct (decide (length (ancestors (dirname p)) <= frames)%nat),
               (decide (S (length (ancestors (dirname p))) <= S frames)%nat);
        try lia; reflexivity.
Qed.

(** With frames enough for the whole chain, the bounded search is the
    search. *)
Lemma find_path_in_frames_enough (frames : nat) (name : string)
    (path : option string) (w : world) :
  (length (ancestors (path_or_cwd path w)) <= frames)%nat ->
  find_path_in_frames frames name path w =
    (match fst (find_path name path w) with
     | inl e => inl (Raised e)
     | inr r => inr r
     end,
     snd (find_path name path w)).
Proof.
  intros Hlen. rewrite find_path_in_frames_scan, find_path_scan. cbv zeta.
  rewrite (take_ge _ _ Hlen). cbn [fst snd].
  destruct (scan _ _ _) as [[e|[p|]] evs]; cbn [fst snd]; try reflexivity.
  destruct (decide _); [reflexivity|contradiction].
Qed.



(** *** The deep tree *)








(** *** The amended claim at a concrete input *)


End RecursionProps.
